(** * Smart traffic signal: the schedulers and the accident notifier

    A shallow embedding of the three programs of the repository:

    - [Ambulance]: [ambulance_detection/detect_ambulance.py], the fixed-time
      four-way rotation that an ambulance preempts, with its per-direction
      cooldown dictionary;
    - [Light]: [vehicle_detection/light.py], the rotation whose green times
      are computed from vehicle counts;
    - [Accident]: [roadsafety_website/detection.py], the video loop that
      places the emergency call.

    Python integers are [Z]; dictionaries keyed by direction names are
    [gmap string Z]; everything the programs print, log, read or display is
    an event of a trace, in program order.  What lies outside the programs
    (the image files, the detectors, the keyboard, the telephone service) is
    an input of the model. *)

From Stdlib Require Import ZArith List Lia QArith.
From stdpp Require Import gmap strings list fin_maps pretty.

(* ===================================================================== *)
(** * Part I: the programs *)
(* ===================================================================== *)

(** Python's [range(start, stop, -1)]: [start, start-1, ..., stop+1]. *)
Definition range_down (start stop : Z) : list Z :=
  (λ k : nat, (start - Z.of_nat k)%Z) <$> seq 0 (Z.to_nat (start - stop)).

(** The three colours a signal is drawn in. *)
Inductive Color := red | yellow | green.

Global Instance Color_eq_dec : EqDecision Color.
Proof. solve_decision. Defined.

(** ** detect_ambulance.py *)
Module Ambulance.

(** [directions], [signal_duration] and [cooldown_duration] of
    [traffic_signal_cycle]. *)
Definition directions : list string := ["East"; "South"; "West"; "North"].
Definition signal_duration : Z := 10.
Definition cooldown_duration : Z := 30.

(** The module-level dictionary [ambulance_cooldown]. *)
Definition ambulance_cooldown : gmap string Z :=
  <["West" := 0%Z]> (<["East" := 0%Z]> (<["South" := 0%Z]> (<["North" := 0%Z]> ∅))).

(** [ambulance_cooldown[direction]].  The dictionary is created with the four
    direction keys and no key is ever removed ([keys_kept] below), so the
    read never raises; an absent key reads as 0 here. *)
Definition cooldown_at (cd : gmap string Z) (direction : string) : Z :=
  default 0%Z (cd !! direction).

(** The test [ambulance_cooldown[direction] > 0] of lines 137, 146, 197. *)
Definition is_suppressed (cd : gmap string Z) (direction : string) : bool :=
  bool_decide (cooldown_at cd direction > 0)%Z.

(** The assignment [ambulance_cooldown[direction] = cooldown_duration] of
    line 159, for any duration. *)
Definition trigger (cd : gmap string Z) (direction : string) (duration : Z)
  : gmap string Z :=
  <[direction := duration]> cd.

(** One call of [draw_traffic_light]: direction, colour, timer, status. *)
Record TrafficLight := mkLight {
  l_direction : string;
  l_color : Color;
  l_timer : option Z;
  l_status : string
}.

(** One displayed picture: the lights drawn before [cv2.imshow] and
    [cv2.waitKey(1000)], in drawing order. *)
Definition Frame := list TrafficLight.

(** What one image path yields in one sweep: [cv2.imread] returns [None],
    or [process_image] raises, or it returns with [n] detections. *)
Inductive Image :=
| Unreadable
| Faulty
| Detections (n : nat).

Inductive Event :=
| PrintCheckingAll
| PrintCooldown (direction : string) (left : Z)
| PrintChecking (direction : string)
| PrintSkipping (direction : string)
| Imread (direction : string)
| PrintReadError (direction : string)
| ProcessImage (direction : string)
| PrintDetected (direction : string)
| PrintProcessingError (direction : string)
| PrintNormalCycle
| Show (f : Frame).
(* [PrintNormalCycle] stands for the two lines printed at 191-192. *)

(** [directions[(i + 1) % 4]]; the index is always in range. *)
Definition next_direction (i : nat) : string :=
  default ""%string (directions !! ((i + 1) mod 4)%nat).

(** Lines 163-181: the picture of one second of an emergency phase. *)
Definition emergency_frame (i : nat) (direction : string) (remaining_time : Z)
  : Frame :=
  (λ d, if decide (d = direction)
        then mkLight d green (Some remaining_time) "EMERGENCY GREEN"
        else if decide (d = next_direction i)
             then mkLight d red (Some remaining_time) "NEXT"
             else mkLight d red None "STOP") <$> directions.

(** Lines 203-223: the picture of one second of a normal phase. *)
Definition normal_frame (i : nat) (direction : string) (remaining_time : Z)
  : Frame :=
  (λ d, if decide (d = direction)
        then mkLight d green (Some remaining_time) "GO"
        else if decide (d = next_direction i)
             then mkLight d yellow (Some remaining_time) "NEXT"
             else mkLight d red None "STOP") <$> directions.

(** Lines 162-184 and 202-226: one picture per value of
    [range(signal_duration, -1, -1)]. *)
Definition countdown (frame : Z → Frame) : list Event :=
  (λ remaining_time, Show (frame remaining_time))
    <$> range_down signal_duration (-1).

(** Lines 136-139, one iteration. *)
Definition update_cooldown (st : gmap string Z * list Event) (direction : string)
  : gmap string Z * list Event :=
  if bool_decide (cooldown_at st.1 direction > 0)%Z
  then let left := Z.max 0 (cooldown_at st.1 direction - 1) in
       (<[direction := left]> st.1, st.2 ++ [PrintCooldown direction left])
  else st.

(** Lines 136-139: the cooldown update at the top of the [while] body. *)
Definition update_cooldowns (cd : gmap string Z) : gmap string Z * list Event :=
  foldl update_cooldown (cd, []) directions.

(** The dictionary after that update. *)
Definition tick (cd : gmap string Z) : gmap string Z := (update_cooldowns cd).1.

(** Lines 142-188: the loop over [enumerate(zip(directions, images))], from
    index [i] on.  It returns the dictionary, [ambulance_detected] and what
    was printed, read and shown.  The [break] of line 185 is the branch that
    does not recurse. *)
Fixpoint check_directions (cd : gmap string Z) (i : nat)
    (todo : list (string * Image)) : gmap string Z * bool * list Event :=
  match todo with
  | [] => (cd, false, [])
  | (direction, img) :: rest =>
      let go_on (evs : list Event) :=
        let '(cd', detected, tr) := check_directions cd (S i) rest in
        (cd', detected, PrintChecking direction :: evs ++ tr) in
      if is_suppressed cd direction then go_on [PrintSkipping direction]
      else
        match img with
        | Unreadable => go_on [Imread direction; PrintReadError direction]
        | Faulty =>
            go_on [Imread direction; ProcessImage direction;
                   PrintProcessingError direction]
        | Detections n =>
            if bool_decide (0 < n)%nat
            then (trigger cd direction cooldown_duration, true,
                  PrintChecking direction :: Imread direction
                  :: ProcessImage direction :: PrintDetected direction
                  :: countdown (emergency_frame i direction))
            else go_on [Imread direction; ProcessImage direction]
        end
  end.

(** Lines 195-226: the normal cycle, from index [i] on. *)
Fixpoint normal_cycle (cd : gmap string Z) (i : nat) (todo : list string)
  : list Event :=
  match todo with
  | [] => []
  | direction :: rest =>
      (if is_suppressed cd direction then [PrintSkipping direction]
       else countdown (normal_frame i direction))
      ++ normal_cycle cd (S i) rest
  end.

(** Lines 130-226: one pass of the body of [while True]. *)
Definition cycle (cd : gmap string Z) (images : list Image)
  : gmap string Z * list Event :=
  let '(cd1, t1) := update_cooldowns cd in
  let '(cd2, ambulance_detected, t2) :=
    check_directions cd1 0 (zip directions images) in
  (cd2, PrintCheckingAll :: t1 ++ t2
        ++ (if ambulance_detected then []
            else PrintNormalCycle :: normal_cycle cd2 0 directions)).

(** [traffic_signal_cycle]: the [while True] loop, run for as many passes as
    the world lasts; [world] gives, pass by pass, what the four image paths
    yield.  Only the user's interrupt ends the loop: a run is taken up to
    the end of a pass. *)
Fixpoint traffic_signal_cycle (cd : gmap string Z) (world : list (list Image))
  : gmap string Z * list Event :=
  match world with
  | [] => (cd, [])
  | images :: later =>
      let '(cd1, t1) := cycle cd images in
      let '(cd2, t2) := traffic_signal_cycle cd1 later in
      (cd2, t1 ++ t2)
  end.

(** *** What is stated about the program *)

(** The pictures of a trace. *)
Definition frames (tr : list Event) : list Frame :=
  omap (λ e, match e with Show f => Some f | _ => None end) tr.

(** The direction an event is about, when it is about one. *)
Definition event_direction (e : Event) : option string :=
  match e with
  | PrintCooldown d _ | PrintChecking d | PrintSkipping d | Imread d
  | PrintReadError d | ProcessImage d | PrintDetected d
  | PrintProcessingError d => Some d
  | PrintCheckingAll | PrintNormalCycle | Show _ => None
  end.

(** An entry of the sweep that makes line 156 succeed: the direction is not
    in cooldown and [process_image] returns [True]. *)
Definition reports_emergency (cd : gmap string Z) (x : string * Image) : bool :=
  negb (is_suppressed cd x.1)
  && match x.2 with Detections n => bool_decide (0 < n)%nat | _ => false end.

(** The value line 138 stores, or the old one when line 137 fails. *)
Definition decremented (c : Z) : Z :=
  if bool_decide (c > 0)%Z then Z.max 0 (c - 1) else c.

(** No key of the dictionary is ever dropped: the reads of [cooldown_at]
    find their key throughout a run that starts from [ambulance_cooldown]. *)
Definition has_keys (cd : gmap string Z) : Prop :=
  ∀ d, d ∈ directions → is_Some (cd !! d).

(** What an event of the sweep or of the normal cycle says about the
    dictionary it was produced from: a direction is skipped only when it is
    in cooldown there, read and processed only when it is not, and no
    cooldown is updated. *)
Definition reads_from (cd : gmap string Z) (e : Event) : Prop :=
  match e with
  | PrintCooldown _ _ => False
  | PrintSkipping d => is_suppressed cd d = true
  | Imread d | PrintReadError d | ProcessImage d | PrintDetected d
  | PrintProcessingError d => is_suppressed cd d = false
  | PrintCheckingAll | PrintChecking _ | PrintNormalCycle | Show _ => True
  end.

(** What a light of a picture must look like in a phase whose green
    direction is [active], with [next] after it in the rotation. *)
Definition light_in_phase (emergency : bool) (active next : string)
    (remaining : Z) (l : TrafficLight) : Prop :=
  if decide (l_direction l = active)
  then l_color l = green ∧ l_timer l = Some remaining
  else if decide (l_direction l = next)
       then l_color l = (if emergency then red else yellow)
            ∧ l_status l = "NEXT"%string ∧ l_timer l = Some remaining
       else l_color l = red ∧ l_timer l = None.

(** A picture of a phase: one light per direction, the only green one is
    the active direction at some index [i] of the rotation, the direction at
    index [(i + 1) mod 4] is marked next, the rest is red without timer. *)
Definition phase_picture (emergency : bool) (f : Frame) : Prop :=
  ∃ (i : nat) (active next : string) (remaining : Z),
    directions !! i = Some active
    ∧ directions !! ((i + 1) mod 4)%nat = Some next
    ∧ l_direction <$> f = directions
    ∧ l_direction <$> filter (λ l, l_color l = green) f = [active]
    ∧ Forall (light_in_phase emergency active next remaining) f.

(** Whether the sweep of this pass finds an ambulance. *)
Definition ambulance_detected (cd : gmap string Z) (images : list Image) : bool :=
  (check_directions (tick cd) 0 (zip directions images)).1.2.


(** The pictures of a list of phases, each shown once per value of
    [range(signal_duration, -1, -1)]. *)
Definition pictures_of (phases : list (Z → Frame)) : list Frame :=
  phases ≫= λ phase, phase <$> range_down signal_duration (-1).

(** The image read in place of one that fails: one without detections. *)
Definition as_no_emergency (img : Image) : Image :=
  match img with
  | Detections n => Detections n
  | Unreadable | Faulty => Detections 0
  end.

(** The line printed for an image that fails. *)
Definition failure_line (d : string) (img : Image) : option Event :=
  match img with
  | Unreadable => Some (PrintReadError d)
  | Faulty => Some (PrintProcessingError d)
  | Detections _ => None
  end.

(** *** The functions around the loop *)

(** A pixel of the HSV image of line 18: hue, saturation, value. *)
Definition Pixel : Type := Z * Z * Z.

(** [cv2.inRange] at one pixel: 255 when every channel lies between its
    bounds, both included, and 0 otherwise. *)
Definition inRange (lower upper : Pixel) (p : Pixel) : Z :=
  if bool_decide ((lower.1.1 ≤ p.1.1 ≤ upper.1.1
                   ∧ lower.1.2 ≤ p.1.2 ≤ upper.1.2
                   ∧ lower.2 ≤ p.2 ≤ upper.2)%Z)
  then 255%Z else 0%Z.

(** Lines 21-24. *)
Definition lower_red1 : Pixel := (0, 100, 100)%Z.
Definition upper_red1 : Pixel := (10, 255, 255)%Z.
Definition lower_red2 : Pixel := (160, 100, 100)%Z.
Definition upper_red2 : Pixel := (180, 255, 255)%Z.

(** Lines 27-29 at one pixel: [mask1 + mask2], a sum of unsigned bytes, which
    wraps at 256. *)
Definition red_mask (p : Pixel) : Z :=
  ((inRange lower_red1 upper_red1 p + inRange lower_red2 upper_red2 p)
     mod 256)%Z.

(** Line 32: [np.sum(red_mask > 0)].  The quotient of line 34 is a
    floating-point number and is left out. *)
Definition red_pixels (hsv : list Pixel) : Z :=
  Z.of_nat (length (filter (λ p, (red_mask p > 0)%Z) hsv)).

(** One row of [results[0].boxes.data]: the box, the confidence and the
    class, all floating-point numbers, taken as the rationals they are. *)
Record Detection := mkDetection {
  box_x1 : Q;
  box_y1 : Q;
  box_x2 : Q;
  box_y2 : Q;
  conf : Q;
  cls : Q
}.

(** Python's [int] on a floating-point number: the fraction is dropped. *)
Definition int (q : Q) : Z := (Qnum q ÷ Z.pos (Qden q))%Z.

(** What [process_image] draws on the image and shows. *)
Inductive Drawing :=
| BoundingBox (x1 y1 x2 y2 : Z)
| BoxLabel (confidence : Q) (x y : Z)
| ShowImage.

(** [process_image], from the rows the detector returns for the resized
    image: what is drawn and shown, and the result. *)
Definition process_image (detections : list Detection) (conf_threshold : Q)
  : list Drawing * bool :=
  ((filter (λ det, Qle_bool conf_threshold (conf det) = true) detections
      ≫= λ det, [BoundingBox (int (box_x1 det)) (int (box_y1 det))
                              (int (box_x2 det)) (int (box_y2 det));
                 BoxLabel (conf det) (int (box_x1 det))
                          (int (box_y1 det) - 10)%Z])
   ++ [ShowImage],
   bool_decide (0 < length detections)%nat).

(** What the sweep gets from an image that is read and on which
    [process_image] does not raise. *)
Definition image_of (detections : list Detection) : Image :=
  Detections (length detections).

(** One call of OpenCV on the display: a rectangle, a circle or a text,
    with its colour in blue-green-red order and its thickness ([-1] fills
    the shape).  Fonts and text sizes are left out. *)
Inductive Paint :=
| PaintRectangle (x1 y1 x2 y2 : Z) (bgr : Z * Z * Z) (thickness : Z)
| PaintCircle (x y radius : Z) (bgr : Z * Z * Z) (thickness : Z)
| PaintText (text : string) (x y : Z).

(** [create_traffic_display]: the title on the black background. *)
Definition create_traffic_display (width height : Z) : list Paint :=
  [PaintText "Traffic Light Simulation" (width / 4) 50].

(** Lines 85-90 of [draw_traffic_light]. *)
Definition circle_color (color : string) : Z * Z * Z :=
  if decide (color = "red"%string) then (0, 0, 255)%Z
  else if decide (color = "yellow"%string) then (0, 255, 255)%Z
  else (0, 255, 0)%Z.

(** [draw_traffic_light]. *)
Definition draw_traffic_light (position : Z * Z) (color direction : string)
    (timer : option Z) (status : string) : list Paint :=
  let box_size := 80%Z in
  let x := position.1 in
  let y := position.2 in
  [PaintRectangle (x - box_size / 2) (y - box_size / 2)
                  (x + box_size / 2) (y + box_size / 2) (128, 128, 128)%Z (-1);
   PaintCircle x y 30 (circle_color color) (-1);
   PaintCircle x y 30 (255, 255, 255)%Z 2;
   PaintText direction (x - 30) (y - 50)]
  ++ match timer with
     | Some t => [PaintText (pretty t +:+ "s") (x - 15) (y + box_size)]
     | None => []
     end
  ++ (if decide (status = ""%string) then []
      else [PaintText status (x - 30) (y + box_size + 30)]).

(** [positions] of [traffic_signal_cycle]. *)
Definition positions : gmap string (Z * Z) :=
  <["West" := (150, 300)%Z]> (<["East" := (650, 300)%Z]>
    (<["South" := (400, 450)%Z]> (<["North" := (400, 150)%Z]> ∅))).

(** The colour names the loop passes to [draw_traffic_light]. *)
Definition color_name (c : Color) : string :=
  match c with red => "red" | yellow => "yellow" | green => "green" end.

(** Lines 163-183 and 203-225: the display of one picture, [None] when a
    direction has no entry in [positions]. *)
Definition render (f : Frame) : option (list Paint) :=
  lights ← mapM (λ l, pos ← positions !! l_direction l;
                      Some (draw_traffic_light pos (color_name (l_color l))
                              (l_direction l) (l_timer l) (l_status l))) f;
  Some (create_traffic_display 800 600 ++ mjoin lights).

(** The colours of the filled circles, and the texts, of a display. *)
Definition filled_circles (paints : list Paint) : list (Z * Z * Z) :=
  omap (λ p, match p with
             | PaintCircle _ _ _ bgr (-1) => Some bgr
             | _ => None
             end) paints.

Definition texts (paints : list Paint) : list string :=
  omap (λ p, match p with PaintText t _ _ => Some t | _ => None end) paints.

(** Every cooldown lies between 0 and [cooldown_duration]. *)
Definition in_bounds (cd : gmap string Z) : Prop :=
  ∀ d, d ∈ directions → (0 ≤ cooldown_at cd d ≤ cooldown_duration)%Z.

(** The directions whose green light a picture shows. *)
Definition green_directions (f : Frame) : list string :=
  l_direction <$> filter (λ l, l_color l = green) f.

(** The directions that are not in cooldown. *)
Definition served (cd : gmap string Z) : list string :=
  filter (λ d, is_suppressed cd d = false) directions.

(** The bounding boxes among the drawings of [process_image]. *)
Definition bounding_boxes (drawings : list Drawing) : list (Z * Z * Z * Z) :=
  omap (λ g, match g with
             | BoundingBox a b c d => Some (a, b, c, d)
             | _ => None
             end) drawings.

(** A pixel lies in one of the two red boxes of lines 21-24. *)
Definition in_red1 (p : Pixel) : Prop :=
  (0 ≤ p.1.1 ≤ 10 ∧ 100 ≤ p.1.2 ≤ 255 ∧ 100 ≤ p.2 ≤ 255)%Z.

Definition in_red2 (p : Pixel) : Prop :=
  (160 ≤ p.1.1 ≤ 180 ∧ 100 ≤ p.1.2 ≤ 255 ∧ 100 ≤ p.2 ≤ 255)%Z.

(** A phase is displayed well: at every second the display has no missing
    position, four filled circles of which one is green, and eleven texts
    (the title, four names, two timers, four statuses) among which the
    remaining time. *)
Definition displayed (phase : Z → Frame) : Prop :=
  ∀ r, ∃ paints,
    render (phase r) = Some paints
    ∧ length (filled_circles paints) = 4%nat
    ∧ filter (λ c, c = (0, 255, 0)%Z) (filled_circles paints) = [(0, 255, 0)%Z]
    ∧ length (texts paints) = 11%nat
    ∧ (pretty r +:+ "s")%string ∈ texts paints.

Global Instance in_red1_dec (p : Pixel) : Decision (in_red1 p).
Proof. unfold in_red1. apply _. Defined.

Global Instance in_red2_dec (p : Pixel) : Decision (in_red2 p).
Proof. unfold in_red2. apply _. Defined.

(** An event that reads or detects on direction [d]. *)
Definition looks_at (d : string) (e : Event) : Prop :=
  e = Imread d ∨ e = ProcessImage d ∨ e = PrintDetected d.

End Ambulance.

(** ** light.py *)
Module Light.

(** The integer fields of the dataclass [TrafficConfig]; the confidence
    threshold, the window size and the vehicle classes only reach the
    detector and the drawing. *)
Record TrafficConfig := mkConfig {
  min_green_time : Z;
  max_green_time : Z;
  cars_per_second : Z;
  yellow_time : Z;
  max_cycles : Z
}.

(** The defaults of the dataclass. *)
Definition default_config : TrafficConfig :=
  {| min_green_time := 10; max_green_time := 30; cars_per_second := 5;
     yellow_time := 3; max_cycles := 5 |}.

(** [calculate_timer]. *)
Definition calculate_timer (config : TrafficConfig) (car_count : Z) : Z :=
  Z.min (Z.max (min_green_time config) (car_count * cars_per_second config))
        (max_green_time config).

(** What an image path yields when [count_cars] looks at it: no such file,
    or an exception while loading or detecting, or [n] vehicles kept by the
    class and confidence filter. *)
Inductive ImageFile :=
| Missing
| Broken
| Vehicles (n : nat).

(** The text under a signal: [f"{green_remaining}s"],
    [f"Wait: {red_remaining}s"] or ["RED"]. *)
Inductive Label :=
| Seconds (n : Z)
| Wait (n : Z)
| RED.

(** The text as it is written on the screen. *)
Definition label_text (l : Label) : string :=
  match l with
  | Seconds n => pretty n +:+ "s"
  | Wait n => "Wait: " +:+ pretty n +:+ "s"
  | RED => "RED"
  end.

(** One signal as [draw_traffic_ui] draws it. *)
Record Signal := mkSignal {
  s_direction : string;
  s_color : Color;
  s_text : Label
}.

Definition Frame := list Signal.

Inductive Event :=
| LogStarting
| CountCars (image_path : string)
| LogImageNotFound (image_path : string)
| LogImageError (image_path : string)
| LogTimer (direction : string) (car_count timer : Z)
| LogCycle (number : Z)
| LogActivated (active : string) (green_time : Z)
| Draw (f : Frame)
| LogRemaining (active : string) (remaining_time : Z)
| Sleep
| LogStopped
| LogSwitching (active next_adjacent : string)
| LogSimulationError
| DestroyWindows.

(** How [process_intersection] ends: the loops run out, the user presses
    ESC, or an exception reaches the handler of line 167. *)
Inductive Outcome := Finished | Stopped | Failed.

(** [count_cars]: the count and what is logged on the way. *)
Definition count_cars (files : string → ImageFile) (image_path : string)
  : Z * list Event :=
  match files image_path with
  | Missing => (0%Z, [CountCars image_path; LogImageNotFound image_path])
  | Broken => (0%Z, [CountCars image_path; LogImageError image_path])
  | Vehicles n => (Z.of_nat n, [CountCars image_path])
  end.

(** The keys of [positions] in [draw_traffic_ui], in dictionary order. *)
Definition positions : list string := ["North"; "East"; "South"; "West"].

(** [order] in [process_intersection]. *)
Definition order : list string := ["North"; "East"; "South"; "West"].

(** [order[i]] for an index in range. *)
Definition order_at (i : nat) : string := default ""%string (order !! i).

(** Lines 90-114: what [draw_traffic_ui] puts on the screen. *)
Definition draw_traffic_ui (active next_adjacent : string)
    (green_remaining red_remaining : Z) : Frame :=
  (λ direction,
     if decide (direction = active)
     then mkSignal direction green (Seconds green_remaining)
     else if decide (direction = next_adjacent)
          then mkSignal direction yellow (Wait red_remaining)
          else mkSignal direction red RED) <$> positions.

(** Lines 135-138: the loop over [images.items()] that fills [timers]. *)
Fixpoint set_timers (config : TrafficConfig) (files : string → ImageFile)
    (items : list (string * string)) (timers : gmap string Z)
  : gmap string Z * list Event :=
  match items with
  | [] => (timers, [])
  | (direction, image_path) :: rest =>
      let '(car_count, log) := count_cars files image_path in
      let timer := calculate_timer config car_count in
      let '(timers', tr) :=
        set_timers config files rest (<[direction := timer]> timers) in
      (timers', log ++ LogTimer direction car_count timer :: tr)
  end.

(** Lines 156-163: the countdown of one green light.  [esc n] tells whether
    ESC is down at the [n]-th call of [draw_traffic_ui] of the run; the
    result carries the number of calls made so far and whether the user
    stopped the simulation. *)
Fixpoint green_countdown (esc : nat → bool) (n : nat)
    (active next_adjacent : string) (times : list Z)
  : list Event * nat * bool :=
  match times with
  | [] => ([], n, false)
  | remaining_time :: rest =>
      let f := draw_traffic_ui active next_adjacent remaining_time remaining_time in
      if esc n then ([Draw f; DestroyWindows; LogStopped], S n, true)
      else
        let '(tr, n', stopped) :=
          green_countdown esc (S n) active next_adjacent rest in
        (Draw f :: LogRemaining active remaining_time :: Sleep :: tr, n', stopped)
  end.

(** Lines 146-165: the loop [for i in range(4)], over the indices left. *)
Fixpoint phases (timers : gmap string Z) (esc : nat → bool) (n : nat)
    (indices : list nat) : list Event * nat * Outcome :=
  match indices with
  | [] => ([], n, Finished)
  | i :: rest =>
      let active := order_at i in
      let next_adjacent := order_at ((i + 1) mod 4) in
      match timers !! active with
      | None => ([LogSimulationError], n, Failed)
      | Some green_time =>
          let '(tr, n', stopped) :=
            green_countdown esc n active next_adjacent (range_down green_time 0) in
          if stopped then (LogActivated active green_time :: tr, n', Stopped)
          else
            let '(tr', n'', out) := phases timers esc n' rest in
            (LogActivated active green_time :: tr
             ++ LogSwitching active next_adjacent :: tr', n'', out)
      end
  end.

(** Lines 143-165: the loop [for cycle in range(max_cycles)], over the
    cycle numbers left. *)
Fixpoint cycles (timers : gmap string Z) (esc : nat → bool) (n : nat)
    (numbers : list nat) : list Event * Outcome :=
  match numbers with
  | [] => ([], Finished)
  | cycle :: rest =>
      let '(tr, n', out) := phases timers esc n (seq 0 4) in
      match out with
      | Finished =>
          let '(tr', out') := cycles timers esc n' rest in
          (LogCycle (Z.of_nat cycle + 1) :: tr ++ tr', out')
      | _ => (LogCycle (Z.of_nat cycle + 1) :: tr, out)
      end
  end.

(** [process_intersection]. *)
Definition process_intersection (config : TrafficConfig)
    (files : string → ImageFile) (esc : nat → bool)
    (images : list (string * string)) : list Event * Outcome :=
  let '(timers, tr0) := set_timers config files images ∅ in
  let '(tr, out) :=
    cycles timers esc 0 (seq 0 (Z.to_nat (max_cycles config))) in
  (LogStarting :: tr0 ++ tr ++ [DestroyWindows], out).

(** *** What is stated about the program *)

(** The pictures and the image paths looked at, of a trace. *)
Definition drawn (tr : list Event) : list Frame :=
  omap (λ e, match e with Draw f => Some f | _ => None end) tr.

Definition sensed (tr : list Event) : list string :=
  omap (λ e, match e with CountCars p => Some p | _ => None end) tr.

(** The image dictionary of [main]. *)
Definition main_images : list (string * string) :=
  [("North", "as.jpg"); ("East", "asdas.jpg"); ("South", "download (1).jpg");
   ("West", "download.jpg")]%string.

(** The clamp of the specification: [x] brought into [[lo, hi]]. *)
Definition spec_clamp (x lo hi : Z) : Z :=
  if bool_decide (x < lo)%Z then lo
  else if bool_decide (hi < x)%Z then hi else x.

(** An event of the cycles that is about a green time takes it from
    [timers]; no event of the cycles looks at an image. *)
Definition from_timers (timers : gmap string Z) (e : Event) : Prop :=
  match e with
  | LogActivated active green_time => timers !! active = Some green_time
  | CountCars _ | LogImageNotFound _ | LogImageError _ | LogTimer _ _ _
  | LogStarting => False
  | _ => True
  end.

(** The countdown of lines 156-163 when nobody presses ESC. *)
Definition countdown_trace (active next_adjacent : string) (times : list Z)
  : list Event :=
  times ≫= λ r, [Draw (draw_traffic_ui active next_adjacent r r);
                 LogRemaining active r; Sleep].

(** One cycle as it is traced when nobody presses ESC. *)
Definition one_cycle (timers : gmap string Z) : list Event :=
  (phases timers (λ _, false) 0 (seq 0 4)).1.1.

(** What a signal of a picture must look like in the phase whose green
    direction is [active], with [next] after it in [order]. *)
Definition signal_in_phase (active next : string) (remaining : Z) (s : Signal)
  : Prop :=
  if decide (s_direction s = active)
  then s_color s = green ∧ s_text s = Seconds remaining
  else if decide (s_direction s = next)
       then s_color s = yellow ∧ s_text s = Wait remaining
       else s_color s = red ∧ s_text s = RED.

Definition phase_picture (f : Frame) : Prop :=
  ∃ (i : nat) (active next : string) (remaining : Z),
    order !! i = Some active
    ∧ order !! ((i + 1) mod 4)%nat = Some next
    ∧ s_direction <$> f = positions
    ∧ s_direction <$> filter (λ s, s_color s = green) f = [active]
    ∧ Forall (signal_in_phase active next remaining) f.

(** The image counted in place of one that fails: one without vehicles. *)
Definition as_empty (img : ImageFile) : ImageFile :=
  match img with
  | Vehicles n => Vehicles n
  | Missing | Broken => Vehicles 0
  end.

(** The line logged for an image that fails. *)
Definition failure_line (image_path : string) (img : ImageFile) : option Event :=
  match img with
  | Missing => Some (LogImageNotFound image_path)
  | Broken => Some (LogImageError image_path)
  | Vehicles _ => None
  end.


(** *** The functions around the loops *)



(** The green times the cycles announce. *)
Definition activated (tr : list Event) : list string :=
  omap (λ e, match e with LogActivated active _ => Some active | _ => None end)
    tr.

(** The seconds of green a dictionary of timers gives a direction: none for
    a timer that is not positive. *)
Definition green_seconds_of (timers : gmap string Z) (d : string) : nat :=
  Z.to_nat (default 0%Z (timers !! d)).

End Light.

(** ** detection.py *)
Module Accident.

Inductive Recipient := first_recipient | second_recipient.

(** What the telephone service does with the call to the first recipient:
    [make_phone_call] returns [None]; or the call is placed and its status
    is [completed] or [answered]; or it is placed and its status is anything
    else; or it is placed and the status request raises. *)
Inductive Telephone :=
| CallRefused
| CallAcknowledged
| CallUnanswered
| StatusUnavailable.

(** A floating-point number as the program holds it: a finite one, given
    as the rational number it is equal to, an infinity, or a NaN. *)
Inductive Float :=
| Finite (q : Q)
| PosInf
| NegInf
| NaN.

(** One frame of the video: the number [confidence] that line 109 computes
    for it, [prob[0][0] * 100] in the floating-point arithmetic of the
    program, and whether [q] is down when the frame is shown. *)
Record VideoFrame := mkFrame {
  confidence : Float;
  q_key : bool
}.

(** What [main] finds: whether the model loads, whether the video opens,
    its frames, and the telephone service. *)
Record World := mkWorld {
  model_loads : bool;
  video_opens : bool;
  video : list VideoFrame;
  telephone : Telephone
}.

Inductive Event :=
| PrintLoading
| PrintLoaded
| PrintOpening
| PrintCannotOpen
| PrintProcessing
| DrawAlert (confidence : Float)
| PrintInitiating
| PhoneCall (to : Recipient)
| SleepThirty
| StatusRequest
| PrintNotAcknowledged
| ShowFrame
| PrintCompleted
| PrintError.

(** [x > 90] on a floating-point number: 90 is a floating-point number, so
    the comparison is the one of the values; it is false on a NaN. *)
Definition gt_90 (x : Float) : bool :=
  match x with
  | Finite q => negb (Qle_bool q (inject_Z 90))
  | PosInf => true
  | NegInf => false
  | NaN => false
  end.

(** Line 112: [confidence > 90]. *)
Definition above_threshold (f : VideoFrame) : bool := gt_90 (confidence f).

(** [handle_emergency_call]: its trace and whether it raises. *)
Definition handle_emergency_call (t : Telephone) : list Event * bool :=
  match t with
  | CallRefused => ([PrintInitiating; PhoneCall first_recipient], false)
  | CallAcknowledged =>
      ([PrintInitiating; PhoneCall first_recipient; SleepThirty; StatusRequest],
       false)
  | CallUnanswered =>
      ([PrintInitiating; PhoneCall first_recipient; SleepThirty; StatusRequest;
        PrintNotAcknowledged; PhoneCall second_recipient], false)
  | StatusUnavailable =>
      ([PrintInitiating; PhoneCall first_recipient; SleepThirty; StatusRequest],
       true)
  end.

(** Lines 98-128: the loop over the frames, with the flag
    [accident_detected].  The loop ends when the frames run out or [q] is
    pressed; an exception of the call ends [main] in the handler of line
    135. *)
Fixpoint process_video (t : Telephone) (frames : list VideoFrame)
    (accident_detected : bool) : list Event :=
  match frames with
  | [] => [PrintCompleted]
  | f :: rest =>
      let show (flag : bool) :=
        ShowFrame :: (if q_key f then [PrintCompleted]
                      else process_video t rest flag) in
      if above_threshold f then
        if negb accident_detected then
          let '(tr, raised) := handle_emergency_call t in
          DrawAlert (confidence f)
          :: tr ++ (if raised then [PrintError] else show true)
        else DrawAlert (confidence f) :: show accident_detected
      else show accident_detected
  end.

(** [main]. *)
Definition main (w : World) : list Event :=
  PrintLoading
  :: (if model_loads w then
        PrintLoaded :: PrintOpening
        :: (if video_opens w then
              PrintProcessing :: process_video (telephone w) (video w) false
            else [PrintCannotOpen])
      else [PrintError]).

(** *** What is stated about the program *)

(** How many times a trace starts the emergency call sequence, and how many
    frames it shows. *)
Fixpoint initiations (tr : list Event) : nat :=
  match tr with
  | [] => 0
  | PrintInitiating :: tr => S (initiations tr)
  | _ :: tr => initiations tr
  end.

Fixpoint shown (tr : list Event) : nat :=
  match tr with
  | [] => 0
  | ShowFrame :: tr => S (shown tr)
  | _ :: tr => shown tr
  end.

(** *** The telephone service *)

(** The reply to the request of [make_phone_call]: the request raises, or
    it returns a status code and a body that has a call id or none. *)
Inductive Reply :=
| RequestRaises
| Http (status_code : Z) (sid : option string).

(** [make_phone_call]: the call id when the status code is 201 and the body
    has one, [None] otherwise. *)
Definition make_phone_call (r : Reply) : option string :=
  match r with
  | RequestRaises => None
  | Http status_code sid => if decide (status_code = 201%Z) then sid else None
  end.

(** The reply to the status request of line 70: it raises, or its body has
    a status or none. *)
Inductive StatusReply :=
| StatusRaises
| StatusBody (status : option string).

(** Lines 66-75 of [handle_emergency_call]: what the two replies amount to.
    The test [if call_sid] fails for [None] and for an empty id; a body
    without status reads as the empty status. *)
Definition telephone_of (first : Reply) (status : StatusReply) : Telephone :=
  match make_phone_call first with
  | None => CallRefused
  | Some sid =>
      if decide (sid = ""%string) then CallRefused
      else
        match status with
        | StatusRaises => StatusUnavailable
        | StatusBody s =>
            if decide (default ""%string s ∈ ["completed"; "answered"]%string)
            then CallAcknowledged else CallUnanswered
        end
  end.

(** The recipients a trace calls, in order, and the number of alerts it
    draws. *)
Definition calls (tr : list Event) : list Recipient :=
  omap (λ e, match e with PhoneCall to => Some to | _ => None end) tr.

Fixpoint alerts (tr : list Event) : nat :=
  match tr with
  | [] => 0
  | DrawAlert _ :: tr => S (alerts tr)
  | _ :: tr => alerts tr
  end.

(** Line 127: [cv2.waitKey(1) & 0xFF == ord('q')], on the key code that
    [waitKey] returns, which is [-1] when no key is down.  This is how
    [q_key] of a frame is obtained. *)
Definition q_pressed (key : Z) : bool := bool_decide (Z.land key 255 = 113)%Z.

End Accident.

(* ===================================================================== *)
(** * Part II: lemmas *)
(* ===================================================================== *)

(** ** Python's descending ranges *)

Lemma length_range_down (start stop : Z) :
  length (range_down start stop) = Z.to_nat (start - stop).
Proof. unfold range_down. by rewrite length_fmap, length_seq. Qed.


(** ** detect_ambulance.py *)
Module AmbulanceFacts.
Import Ambulance.

(** *** The cooldown dictionary *)

Lemma directions_NoDup : NoDup directions.
Proof. by apply (bool_decide_unpack (NoDup directions)); vm_compute. Qed.

Lemma cooldown_at_insert (cd : gmap string Z) (d d' : string) (v : Z) :
  cooldown_at (<[d := v]> cd) d' = if decide (d = d') then v else cooldown_at cd d'.
Proof. unfold cooldown_at. rewrite lookup_insert. by case_decide. Qed.

Lemma update_cooldown_at (st : gmap string Z * list Event) (x d : string) :
  cooldown_at (update_cooldown st x).1 d
  = if decide (x = d) then decremented (cooldown_at st.1 d) else cooldown_at st.1 d.
Proof.
  unfold update_cooldown, decremented.
  case_decide as Hx; [subst x|].
  - case_bool_decide; simpl; [|done].
    rewrite cooldown_at_insert. by rewrite decide_True.
  - case_bool_decide; simpl; [|done].
    rewrite cooldown_at_insert. by rewrite decide_False.
Qed.

Lemma foldl_update_cooldown_at (l : list string) (st : gmap string Z * list Event)
    (d : string) :
  NoDup l →
  cooldown_at (foldl update_cooldown st l).1 d
  = if decide (d ∈ l) then decremented (cooldown_at st.1 d) else cooldown_at st.1 d.
Proof.
  intros Hnd. revert st. induction Hnd as [|x l Hx Hnd IH]; intros st.
  - done.
  - cbn [foldl]. rewrite IH, update_cooldown_at.
    destruct (decide (x = d)) as [->|Hne].
    + rewrite (decide_False (P := d ∈ l)) by done.
      rewrite decide_True; [done | by left].
    + destruct (decide (d ∈ l)).
      * rewrite decide_True; [done | by right].
      * rewrite decide_False; [done | by apply not_elem_of_cons].
Qed.

Lemma tick_at (cd : gmap string Z) (d : string) :
  cooldown_at (tick cd) d
  = if decide (d ∈ directions) then decremented (cooldown_at cd d)
    else cooldown_at cd d.
Proof.
  unfold tick, update_cooldowns.
  by rewrite foldl_update_cooldown_at by apply directions_NoDup.
Qed.

Lemma ticks_at (k : nat) (cd : gmap string Z) (d : string) :
  d ∈ directions → (0 ≤ cooldown_at cd d)%Z →
  cooldown_at (Nat.iter k tick cd) d = Z.max 0 (cooldown_at cd d - Z.of_nat k).
Proof.
  intros Hd Hc. induction k as [|k IH].
  - simpl. lia.
  - rewrite Nat.iter_succ, tick_at, decide_True by done.
    rewrite IH. unfold decremented. case_bool_decide; lia.
Qed.

Lemma has_keys_initial : has_keys ambulance_cooldown.
Proof.
  intros d Hd. unfold directions in Hd. unfold ambulance_cooldown.
  repeat (apply elem_of_cons in Hd as [->|Hd]); [by vm_compute; eexists..|].
  by apply elem_of_nil in Hd.
Qed.

Lemma has_keys_insert (cd : gmap string Z) (d : string) (v : Z) :
  has_keys cd → has_keys (<[d := v]> cd).
Proof.
  intros H d' Hd'. rewrite lookup_insert. case_decide; [by eexists | by apply H].
Qed.

Lemma has_keys_foldl (l : list string) (st : gmap string Z * list Event) :
  has_keys st.1 → has_keys (foldl update_cooldown st l).1.
Proof.
  revert st. induction l as [|x l IH]; intros st H; simpl; [done|].
  apply IH. unfold update_cooldown. case_bool_decide; simpl; [|done].
  by apply has_keys_insert.
Qed.

Lemma has_keys_tick (cd : gmap string Z) : has_keys cd → has_keys (tick cd).
Proof. apply (has_keys_foldl directions (cd, [])). Qed.

Lemma has_keys_check_directions (cd : gmap string Z) (i : nat)
    (todo : list (string * Image)) :
  has_keys cd → has_keys (check_directions cd i todo).1.1.
Proof.
  intros H. revert i. induction todo as [|[d img] rest IH]; intros i; simpl; [done|].
  specialize (IH (S i)).
  destruct (check_directions cd (S i) rest) as [[cd' b] tr].
  destruct (is_suppressed cd d); [done|].
  destruct img as [| |n]; try done.
  case_bool_decide; [|done]. by apply has_keys_insert.
Qed.

Lemma keys_kept (cd : gmap string Z) (world : list (list Image)) :
  has_keys cd → has_keys (traffic_signal_cycle cd world).1.
Proof.
  revert cd. induction world as [|images later IH]; intros cd H; simpl; [done|].
  unfold cycle.
  pose proof (has_keys_tick cd H) as Ht. unfold tick in Ht.
  destruct (update_cooldowns cd) as [cd1 t1]. simpl in Ht.
  pose proof (has_keys_check_directions cd1 0 (zip directions images) Ht) as Hc.
  destruct (check_directions cd1 0 (zip directions images)) as [[cd2 b] t2].
  simpl in Hc. specialize (IH cd2 Hc).
  by destruct (traffic_signal_cycle cd2 later).
Qed.

(** *** The sweep *)

Lemma frames_app (t1 t2 : list Event) : frames (t1 ++ t2) = frames t1 ++ frames t2.
Proof. apply omap_app. Qed.

Lemma frames_countdown (frame : Z → Frame) :
  frames (countdown frame) = frame <$> range_down signal_duration (-1).
Proof.
  unfold countdown. induction (range_down signal_duration (-1)) as [|r l IH];
    [done|]. cbn. unfold frames in IH. by rewrite IH.
Qed.

(** Entries that report nothing are passed over: the sweep goes on with the
    rest of the list as if it started there, and what it has printed and
    read up to there is about the entries passed over. *)
Lemma check_directions_app (cd : gmap string Z) (i : nat)
    (pre rest : list (string * Image)) :
  (∀ x, x ∈ pre → reports_emergency cd x = false) →
  ∃ before,
    check_directions cd i (pre ++ rest)
    = ((check_directions cd (i + length pre) rest).1,
       before ++ (check_directions cd (i + length pre) rest).2)
    ∧ frames before = []
    ∧ (∀ e, e ∈ before → ∃ x, x ∈ pre ∧ event_direction e = Some x.1).
Proof.
  revert i. induction pre as [|[d0 img0] pre IH]; intros i Hpre.
  - exists []. cbn [app length]. rewrite Nat.add_0_r.
    split; [by destruct (check_directions cd i rest) as [[? ?] ?]|].
    split; [done|]. by intros e He%elem_of_nil.
  - destruct (IH (S i)) as (before & Heq & Hfr & Hev).
    { intros x Hx. apply Hpre. by right. }
    assert (H0 : reports_emergency cd (d0, img0) = false) by (apply Hpre; by left).
    unfold reports_emergency in H0. cbn [fst snd] in H0.
    replace (S i + length pre)%nat with (i + length ((d0, img0) :: pre))%nat
      in Heq by (cbn [length]; lia).
    cbn [app check_directions]. rewrite Heq.
    destruct (check_directions cd (i + length ((d0, img0) :: pre)) rest)
      as [[cd' b] tr]. cbn [fst snd].
    assert (Hin : ∀ evs e, Forall (λ e', event_direction e' = Some d0) evs →
              e ∈ PrintChecking d0 :: evs ++ before →
              ∃ x, x ∈ (d0, img0) :: pre ∧ event_direction e = Some x.1).
    { intros evs e Hevs He. apply elem_of_cons in He as [->|He].
      - exists (d0, img0). split; [by left | done].
      - apply elem_of_app in He as [He|He].
        + exists (d0, img0). split; [by left|].
          by apply (proj1 (Forall_forall _ _) Hevs).
        + destruct (Hev e He) as (x & Hx & Hx'). exists x.
          split; [by right | done]. }
    destruct (is_suppressed cd d0) eqn:Hs0.
    { exists (PrintChecking d0 :: [PrintSkipping d0] ++ before).
      split; [done|]. split; [done|]. intros e. apply Hin.
      by repeat constructor. }
    destruct img0 as [| |n0].
    + exists (PrintChecking d0 :: [Imread d0; PrintReadError d0] ++ before).
      split; [done|]. split; [done|]. intros e. apply Hin.
      by repeat constructor.
    + exists (PrintChecking d0
              :: [Imread d0; ProcessImage d0; PrintProcessingError d0] ++ before).
      split; [done|]. split; [done|]. intros e. apply Hin.
      by repeat constructor.
    + cbn in H0. rewrite H0.
      exists (PrintChecking d0 :: [Imread d0; ProcessImage d0] ++ before).
      split; [done|]. split; [done|]. intros e. apply Hin.
      by repeat constructor.
Qed.

(** The split of the sweep of one pass at index [k]. *)
Lemma sweep_split (cd : gmap string Z) (images : list Image) (k : nat)
    (d : string) (img : Image) :
  directions !! k = Some d →
  images !! k = Some img →
  (∀ k' d' img', (k' < k)%nat → directions !! k' = Some d' →
     images !! k' = Some img' → reports_emergency cd (d', img') = false) →
  ∃ before,
    check_directions cd 0 (zip directions images)
    = ((check_directions cd k
          ((d, img) :: drop (S k) (zip directions images))).1,
       before ++ (check_directions cd k
                    ((d, img) :: drop (S k) (zip directions images))).2)
    ∧ frames before = []
    ∧ (∀ e, e ∈ before →
         ∃ k' d', (k' < k)%nat ∧ directions !! k' = Some d'
                  ∧ event_direction e = Some d').
Proof.
  intros Hd Hi Hlow.
  assert (Hz : zip directions images !! k = Some (d, img)).
  { rewrite lookup_zip_with, Hd. cbn. by rewrite Hi. }
  set (rest := drop (S k) (zip directions images)).
  rewrite <- (take_drop_middle _ _ _ Hz). subst rest.
  destruct (check_directions_app cd 0 (take k (zip directions images))
              ((d, img) :: drop (S k) (zip directions images)))
    as (before & Heq & Hfr & Hev).
  { intros [d' img'] Hx. apply elem_of_take in Hx as (k' & Hx & Hlt).
    apply lookup_zip_with_Some in Hx as (a & b & [= <- <-] & Ha & Hb).
    by apply (Hlow k'). }
  rewrite length_take in Heq. apply lookup_lt_Some in Hz.
  replace (0 + k `min` length (zip directions images))%nat with k in Heq by lia.
  exists before. split; [done|]. split; [done|].
  intros e He. destruct (Hev e He) as ([d' img'] & Hx & Hx').
  apply elem_of_take in Hx as (k' & Hx & Hlt).
  apply lookup_zip_with_Some in Hx as (a & b & [= <- <-] & Ha & Hb).
  by exists k', d'.
Qed.

(** The sweep of one pass stops at the lowest index [j] of [directions]
    whose entry reports an ambulance. *)
Lemma sweep_first (cd : gmap string Z) (images : list Image) (j : nat)
    (direction : string) (img : Image) :
  directions !! j = Some direction →
  images !! j = Some img →
  reports_emergency cd (direction, img) = true →
  (∀ j' d' img', (j' < j)%nat → directions !! j' = Some d' →
     images !! j' = Some img' → reports_emergency cd (d', img') = false) →
  ∃ before,
    check_directions cd 0 (zip directions images)
    = (trigger cd direction cooldown_duration, true,
       before ++ PrintChecking direction :: Imread direction
       :: ProcessImage direction :: PrintDetected direction
       :: countdown (emergency_frame j direction))
    ∧ frames before = []
    ∧ (∀ e, e ∈ before →
         ∃ j' d', (j' < j)%nat ∧ directions !! j' = Some d'
                  ∧ event_direction e = Some d').
Proof.
  intros Hd Hi Hrep Hlow.
  destruct (sweep_split cd images j direction img Hd Hi Hlow)
    as (before & Heq & Hfr & Hev).
  unfold reports_emergency in Hrep. cbn [fst snd] in Hrep.
  apply andb_true_iff in Hrep as [Hs Hdet]. apply negb_true_iff in Hs.
  destruct img as [| |n]; try done.
  exists before. split; [|done].
  rewrite Heq. cbn [check_directions]. by rewrite Hs, Hdet.
Qed.

(** *** One pass of the loop *)

Lemma countdown_reads_from (cd : gmap string Z) (frame : Z → Frame) :
  Forall (reads_from cd) (countdown frame).
Proof. unfold countdown. apply Forall_fmap. by apply Forall_true. Qed.

Lemma check_directions_reads_from (cd : gmap string Z) (i : nat)
    (todo : list (string * Image)) :
  Forall (reads_from cd) (check_directions cd i todo).2.
Proof.
  revert i. induction todo as [|[d img] rest IH]; intros i; [by constructor|].
  cbn [check_directions]. specialize (IH (S i)).
  destruct (check_directions cd (S i) rest) as [[cd' b] tr]. cbn [snd] in IH.
  destruct (is_suppressed cd d) eqn:Hs; [by repeat constructor|].
  destruct img as [| |n]; [by repeat constructor..|].
  case_bool_decide; [|by repeat constructor].
  cbn [snd]. do 4 (constructor; [done|]). apply countdown_reads_from.
Qed.

Lemma normal_cycle_reads_from (cd : gmap string Z) (i : nat) (todo : list string) :
  Forall (reads_from cd) (normal_cycle cd i todo).
Proof.
  revert i. induction todo as [|d rest IH]; intros i; [by constructor|].
  cbn [normal_cycle]. apply Forall_app_2; [|apply IH].
  destruct (is_suppressed cd d) eqn:Hs; [by repeat constructor|].
  apply countdown_reads_from.
Qed.

(** The sweep either detects nothing and leaves the dictionary alone, or
    sets the cooldown of the one direction it announces. *)
Lemma check_directions_cooldown (cd : gmap string Z) (i : nat)
    (todo : list (string * Image)) :
  ((check_directions cd i todo).1.2 = false
   ∧ (check_directions cd i todo).1.1 = cd)
  ∨ ((check_directions cd i todo).1.2 = true
     ∧ ∃ d, (check_directions cd i todo).1.1 = trigger cd d cooldown_duration
            ∧ PrintDetected d ∈ (check_directions cd i todo).2).
Proof.
  revert i. induction todo as [|[d img] rest IH]; intros i; [by left|].
  cbn [check_directions]. specialize (IH (S i)).
  destruct (check_directions cd (S i) rest) as [[cd' b] tr].
  cbn [fst snd] in IH.
  assert (Hgo : ∀ evs : list Event,
            (b = false ∧ cd' = cd)
            ∨ (b = true ∧ ∃ d0, cd' = trigger cd d0 cooldown_duration
                 ∧ PrintDetected d0 ∈ PrintChecking d :: evs ++ tr)).
  { intros evs. destruct IH as [IH|(Hb & d0 & Hcd & Hin)]; [by left|right].
    split; [done|]. exists d0. split; [done|].
    right. apply elem_of_app. by right. }
  destruct (is_suppressed cd d); [apply Hgo|].
  destruct img as [| |n]; [apply Hgo..|].
  case_bool_decide; [|apply Hgo].
  right. split; [done|]. exists d. split; [done|]. cbn [snd].
  do 3 right. by left.
Qed.

Lemma update_cooldown_trace (l : list string) (st : gmap string Z * list Event) :
  Forall (λ e, ∃ d v, e = PrintCooldown d v) st.2 →
  Forall (λ e, ∃ d v, e = PrintCooldown d v) (foldl update_cooldown st l).2
  ∧ (length (foldl update_cooldown st l).2 ≤ length st.2 + length l)%nat.
Proof.
  revert st. induction l as [|x l IH]; intros st Hst; cbn [foldl].
  - split; [done | lia].
  - destruct (IH (update_cooldown st x)) as [IH1 IH2].
    + unfold update_cooldown. case_bool_decide; [|done]. cbn [snd].
      apply Forall_app_2; [done|]. constructor; [by eexists _, _ | constructor].
    + split; [done|]. etrans; [apply IH2|].
      unfold update_cooldown. case_bool_decide; cbn [snd length];
        rewrite ?length_app; cbn [length]; lia.
Qed.

Lemma cycle_unfold (cd : gmap string Z) (images : list Image) :
  cycle cd images
  = ((check_directions (tick cd) 0 (zip directions images)).1.1,
     PrintCheckingAll :: (update_cooldowns cd).2
     ++ (check_directions (tick cd) 0 (zip directions images)).2
     ++ (if (check_directions (tick cd) 0 (zip directions images)).1.2 then []
         else PrintNormalCycle
              :: normal_cycle (check_directions (tick cd) 0
                                 (zip directions images)).1.1 0 directions)).
Proof.
  unfold cycle, tick. destruct (update_cooldowns cd) as [cd1 t1]. cbn [fst snd].
  by destruct (check_directions cd1 0 (zip directions images)) as [[cd2 b] t2].
Qed.

Lemma normal_cycle_all_suppressed (cd : gmap string Z) (i : nat) (todo : list string) :
  (∀ d, d ∈ todo → is_suppressed cd d = true) →
  normal_cycle cd i todo = PrintSkipping <$> todo.
Proof.
  revert i. induction todo as [|d rest IH]; intros i H; [done|].
  cbn [normal_cycle]. rewrite H by (by left). rewrite IH; [done|].
  intros d' Hd'. apply H. by right.
Qed.

Lemma check_directions_all_suppressed (cd : gmap string Z) (i : nat)
    (todo : list (string * Image)) :
  (∀ x, x ∈ todo → is_suppressed cd x.1 = true) →
  check_directions cd i todo
  = (cd, false, todo ≫= λ x, [PrintChecking x.1; PrintSkipping x.1]).
Proof.
  revert i. induction todo as [|[d img] rest IH]; intros i H; [done|].
  cbn [check_directions]. rewrite IH by (intros x Hx; apply H; by right).
  assert (Hd : is_suppressed cd d = true) by (apply (H (d, img)); by left).
  by rewrite Hd.
Qed.

Lemma frames_skipping (l : list string) : frames (PrintSkipping <$> l) = [].
Proof. induction l as [|d l IH]; [done|]. apply IH. Qed.

Lemma frames_checking_skipping (l : list (string * Image)) :
  frames (l ≫= λ x, [PrintChecking x.1; PrintSkipping x.1]) = [].
Proof. induction l as [|d l IH]; [done|]. apply IH. Qed.

Lemma length_checking_skipping (l : list (string * Image)) :
  length (l ≫= λ x, [PrintChecking x.1; PrintSkipping x.1]) = (2 * length l)%nat.
Proof. induction l as [|d l IH]; [done|]. cbn in *. rewrite IH. lia. Qed.

Lemma frames_cooldown_updates (tr : list Event) :
  Forall (λ e, ∃ d v, e = PrintCooldown d v) tr → frames tr = [].
Proof. induction 1 as [|e tr (d & v & ->) _ IH]; [done|]. apply IH. Qed.

(** *** The pictures *)

Lemma emergency_frame_picture (i : nat) (d : string) (r : Z) :
  directions !! i = Some d → phase_picture true (emergency_frame i d r).
Proof.
  intros H. exists i, d, (next_direction i), r.
  destruct i as [|[|[|[|i]]]]; [..|done]; injection H as <-;
    (split; [done|]); (split; [done|]); (split; [done|]); (split; [done|]);
    repeat constructor.
Qed.

Lemma normal_frame_picture (i : nat) (d : string) (r : Z) :
  directions !! i = Some d → phase_picture false (normal_frame i d r).
Proof.
  intros H. exists i, d, (next_direction i), r.
  destruct i as [|[|[|[|i]]]]; [..|done]; injection H as <-;
    (split; [done|]); (split; [done|]); (split; [done|]); (split; [done|]);
    repeat constructor.
Qed.

Lemma countdown_pictures (P : Frame → Prop) (frame : Z → Frame) :
  (∀ r, P (frame r)) → Forall P (frames (countdown frame)).
Proof.
  intros H. rewrite frames_countdown. apply Forall_fmap. by apply Forall_true.
Qed.

Lemma check_directions_pictures (cd : gmap string Z) (i : nat)
    (todo : list (string * Image)) :
  (∀ k x, todo !! k = Some x → directions !! (i + k)%nat = Some x.1) →
  Forall (phase_picture true) (frames (check_directions cd i todo).2)
  ∧ ((check_directions cd i todo).1.2 = false →
     frames (check_directions cd i todo).2 = []).
Proof.
  revert i. induction todo as [|[d img] rest IH]; intros i Hidx;
    [by split; [constructor|]|].
  cbn [check_directions]. destruct (IH (S i)) as [IH1 IH2].
  { intros k x Hk. replace (S i + k)%nat with (i + S k)%nat by lia.
    by apply Hidx. }
  assert (Hd : directions !! i = Some d).
  { specialize (Hidx 0%nat (d, img) eq_refl). by rewrite Nat.add_0_r in Hidx. }
  destruct (check_directions cd (S i) rest) as [[cd' b] tr].
  cbn [fst snd] in IH1, IH2.
  destruct (is_suppressed cd d); [done|].
  destruct img as [| |n]; [done..|].
  case_bool_decide; [|done].
  cbn [fst snd]. split; [|done].
  change (Forall (phase_picture true)
            (frames (countdown (emergency_frame i d)))).
  apply countdown_pictures. intros r. by apply emergency_frame_picture.
Qed.

Lemma normal_cycle_pictures (cd : gmap string Z) (i : nat) (todo : list string) :
  (∀ k d, todo !! k = Some d → directions !! (i + k)%nat = Some d) →
  Forall (phase_picture false) (frames (normal_cycle cd i todo)).
Proof.
  revert i. induction todo as [|d rest IH]; intros i Hidx; [constructor|].
  cbn [normal_cycle]. rewrite frames_app. apply Forall_app_2.
  - destruct (is_suppressed cd d); [constructor|].
    apply countdown_pictures. intros r. apply normal_frame_picture.
    specialize (Hidx 0%nat d eq_refl). by rewrite Nat.add_0_r in Hidx.
  - apply IH. intros k x Hk. replace (S i + k)%nat with (i + S k)%nat by lia.
    by apply Hidx.
Qed.

(** Every picture of a pass is a phase picture: an emergency one in a pass
    whose sweep detects an ambulance, a normal one otherwise. *)
Lemma cycle_pictures (cd : gmap string Z) (images : list Image) :
  Forall (phase_picture (ambulance_detected cd images))
    (frames (cycle cd images).2).
Proof.
  rewrite cycle_unfold. cbn [snd]. unfold ambulance_detected.
  change (frames (PrintCheckingAll :: ?t)) with (frames t).
  rewrite !frames_app.
  destruct (update_cooldown_trace directions (cd, [])) as [Hupd _];
    [constructor|].
  fold (update_cooldowns cd) in Hupd.
  rewrite (frames_cooldown_updates _ Hupd). cbn [app].
  destruct (check_directions_pictures (tick cd) 0 (zip directions images))
    as [H1 H2].
  { intros k [d img] Hk.
    by apply lookup_zip_with_Some in Hk as (a & b & [= <- <-] & Ha & Hb). }
  destruct (check_directions (tick cd) 0 (zip directions images))
    as [[cd2 [|]] t2]; cbn [fst snd] in *.
  - by rewrite app_nil_r.
  - rewrite H2 by done. cbn [app].
    change (frames (PrintNormalCycle :: ?t)) with (frames t).
    by apply normal_cycle_pictures.
Qed.

(** *** The countdown of a phase *)






(** *** Images that cannot be read or processed *)

Lemma zip_as_no_emergency (l : list string) (images : list Image) :
  zip l (as_no_emergency <$> images)
  = prod_map id as_no_emergency <$> zip l images.
Proof.
  revert images. induction l as [|d l IH]; intros [|img images]; [done..|].
  cbn. by rewrite <- IH.
Qed.

Lemma check_directions_failure_local (cd : gmap string Z) (i : nat)
    (todo : list (string * Image)) :
  (check_directions cd i (prod_map id as_no_emergency <$> todo)).1
  = (check_directions cd i todo).1
  ∧ frames (check_directions cd i (prod_map id as_no_emergency <$> todo)).2
    = frames (check_directions cd i todo).2.
Proof.
  revert i. induction todo as [|[d img] rest IH]; intros i; [done|].
  rewrite fmap_cons. cbn [prod_map fst snd id check_directions].
  destruct (IH (S i)) as [IH1 IH2].
  destruct (check_directions cd (S i) (prod_map id as_no_emergency <$> rest))
    as [[cd1 b1] t1].
  destruct (check_directions cd (S i) rest) as [[cd2 b2] t2].
  cbn [fst snd] in IH1, IH2. injection IH1 as -> ->.
  destruct (is_suppressed cd d); [done|].
  destruct img as [| |n]; cbn [as_no_emergency];
    rewrite ?bool_decide_false by lia; [done..|].
  by case_bool_decide.
Qed.

Lemma cycle_failure_local (cd : gmap string Z) (images : list Image) :
  (cycle cd (as_no_emergency <$> images)).1 = (cycle cd images).1
  ∧ frames (cycle cd (as_no_emergency <$> images)).2 = frames (cycle cd images).2.
Proof.
  rewrite !cycle_unfold, zip_as_no_emergency. cbn [fst snd].
  destruct (check_directions_failure_local (tick cd) 0 (zip directions images))
    as [H1 H2].
  destruct (check_directions (tick cd) 0
              (prod_map id as_no_emergency <$> zip directions images))
    as [[cd1 b1] t1].
  destruct (check_directions (tick cd) 0 (zip directions images))
    as [[cd2 b2] t2].
  cbn [fst snd] in *. injection H1 as -> ->. split; [done|].
  change (frames (PrintCheckingAll :: ?t)) with (frames t).
  by rewrite !frames_app, H2.
Qed.

Lemma run_failure_local (cd : gmap string Z) (world : list (list Image)) :
  (traffic_signal_cycle cd ((λ images : list Image, as_no_emergency <$> images) <$> world)).1
  = (traffic_signal_cycle cd world).1
  ∧ frames (traffic_signal_cycle cd ((λ images : list Image, as_no_emergency <$> images) <$> world)).2
    = frames (traffic_signal_cycle cd world).2.
Proof.
  revert cd. induction world as [|images later IH]; intros cd; [done|].
  rewrite fmap_cons. cbn beta. cbn [traffic_signal_cycle].
  destruct (cycle_failure_local cd images) as [H1 H2].
  destruct (cycle cd (as_no_emergency <$> images)) as [cd1 t1].
  destruct (cycle cd images) as [cd1' t1']. cbn [fst snd] in H1, H2. subst cd1'.
  destruct (IH cd1) as [IH1 IH2].
  destruct (traffic_signal_cycle cd1 ((λ images : list Image, as_no_emergency <$> images) <$> later))
    as [cd2 t2].
  destruct (traffic_signal_cycle cd1 later) as [cd2' t2'].
  cbn [fst snd] in *. by rewrite !frames_app, H2, IH2.
Qed.

(** A failing image that the sweep reaches is reported, and the sweep goes
    on with the directions after it. *)
Lemma sweep_failure_logged (cd : gmap string Z) (images : list Image) (k : nat)
    (d : string) (img : Image) (line : Event) :
  directions !! k = Some d →
  images !! k = Some img →
  failure_line d img = Some line →
  is_suppressed cd d = false →
  (∀ k' d' img', (k' < k)%nat → directions !! k' = Some d' →
     images !! k' = Some img' → reports_emergency cd (d', img') = false) →
  ∃ before,
    check_directions cd 0 (zip directions images)
    = ((check_directions cd (S k) (drop (S k) (zip directions images))).1,
       before ++ line
       :: (check_directions cd (S k) (drop (S k) (zip directions images))).2)
    ∧ frames before = [].
Proof.
  intros Hd Hi Hline Hs Hlow.
  destruct (sweep_split cd images k d img Hd Hi Hlow)
    as (before & Heq & Hfr & _).
  rewrite Heq. cbn [check_directions]. rewrite Hs.
  destruct (check_directions cd (S k) (drop (S k) (zip directions images)))
    as [[cd' b] tr]. cbn [fst snd].
  destruct img as [| |n]; [| |done]; injection Hline as <-; cbn [fst snd].
  - exists (before ++ [PrintChecking d; Imread d]).
    split; [by rewrite <- !app_assoc | by rewrite frames_app, Hfr].
  - exists (before ++ [PrintChecking d; Imread d; ProcessImage d]).
    split; [by rewrite <- !app_assoc | by rewrite frames_app, Hfr].
Qed.

Lemma run_pictures (cd : gmap string Z) (world : list (list Image)) :
  Forall (λ f, phase_picture true f ∨ phase_picture false f)
    (frames (traffic_signal_cycle cd world).2).
Proof.
  revert cd. induction world as [|images later IH]; intros cd; [constructor|].
  cbn [traffic_signal_cycle]. pose proof (cycle_pictures cd images) as Hc.
  destruct (cycle cd images) as [cd1 t1]. specialize (IH cd1).
  destruct (traffic_signal_cycle cd1 later) as [cd2 t2]. cbn [snd] in *.
  rewrite frames_app. apply Forall_app_2; [|done].
  eapply Forall_impl; [exact Hc|]. intros f Hf.
  by destruct (ambulance_detected cd images); [left|right].
Qed.

(** *** Two runs *)

(** An ambulance on South only: South gets the emergency phase, West is
    marked next, the countdown runs from 10 to 0, the cooldown of South is
    30, and the sweep of the following pass skips South. *)
Example south_emergency :
  let images := [Detections 0; Detections 1; Detections 0; Detections 0] in
  let first := cycle ambulance_cooldown images in
  head (frames first.2)
  = Some [mkLight "East" red None "STOP";
          mkLight "South" green (Some 10%Z) "EMERGENCY GREEN";
          mkLight "West" red (Some 10%Z) "NEXT";
          mkLight "North" red None "STOP"]
  ∧ length (frames first.2) = 11%nat
  ∧ cooldown_at first.1 "South" = 30%Z
  ∧ take 14 (cycle first.1 images).2
    = [PrintCheckingAll; PrintCooldown "South" 29;
       PrintChecking "East"; Imread "East"; ProcessImage "East";
       PrintChecking "South"; PrintSkipping "South";
       PrintChecking "West"; Imread "West"; ProcessImage "West";
       PrintChecking "North"; Imread "North"; ProcessImage "North";
       PrintNormalCycle].
Proof. by vm_compute. Qed.

(** With no cooldown running, the update changes nothing and prints
    nothing. *)
Example update_at_zero : update_cooldowns ambulance_cooldown = (ambulance_cooldown, []).
Proof. reflexivity. Qed.

(** *** The phases of a pass *)

Lemma length_pictures_of (phases : list (Z → Frame)) :
  length (pictures_of phases) = (11 * length phases)%nat.
Proof.
  unfold pictures_of. induction phases as [|ph phases IH]; [done|].
  cbn [mbind list_bind]. rewrite length_app, length_fmap, length_range_down.
  unfold pictures_of in IH. cbn [mbind] in IH. rewrite IH.
  change (Z.to_nat (signal_duration - -1)) with 11%nat. cbn [length]. lia.
Qed.

(** The sweep shows one emergency phase when it detects an ambulance and
    nothing otherwise. *)
Lemma check_directions_phases_with (P : (Z → Frame) → Prop)
    (cd : gmap string Z) (i : nat) (todo : list (string * Image)) :
  (∀ j d, directions !! j = Some d → P (emergency_frame j d)) →
  (∀ k x, todo !! k = Some x → directions !! (i + k)%nat = Some x.1) →
  ∃ phases,
    frames (check_directions cd i todo).2 = pictures_of phases
    ∧ Forall P phases
    ∧ length phases
      = (if (check_directions cd i todo).1.2 then 1 else 0)%nat.
Proof.
  intros HP. revert i. induction todo as [|[d img] rest IH]; intros i Hidx;
    [by exists []|].
  cbn [check_directions]. destruct (IH (S i)) as (phases & IH1 & IH2 & IH3).
  { intros k x Hk. replace (S i + k)%nat with (i + S k)%nat by lia.
    by apply Hidx. }
  assert (Hd : directions !! i = Some d).
  { specialize (Hidx 0%nat (d, img) eq_refl). by rewrite Nat.add_0_r in Hidx. }
  destruct (check_directions cd (S i) rest) as [[cd' b] tr].
  cbn [fst snd] in IH1, IH3.
  destruct (is_suppressed cd d); [by exists phases|].
  destruct img as [| |n]; [by exists phases..|].
  case_bool_decide; [|by exists phases].
  exists [emergency_frame i d]. split; [|split; [|done]].
  - cbn [snd]. change (frames (countdown (emergency_frame i d))
                       = pictures_of [emergency_frame i d]).
    rewrite frames_countdown. unfold pictures_of. cbn. by rewrite app_nil_r.
  - constructor; [|constructor]. by apply HP.
Qed.

(** The normal cycle shows one normal phase per direction that is not in
    cooldown. *)
Lemma normal_cycle_phases_with (P : (Z → Frame) → Prop)
    (cd : gmap string Z) (i : nat) (todo : list string) :
  (∀ j d, directions !! j = Some d → P (normal_frame j d)) →
  (∀ k d, todo !! k = Some d → directions !! (i + k)%nat = Some d) →
  ∃ phases,
    frames (normal_cycle cd i todo) = pictures_of phases
    ∧ Forall P phases
    ∧ length phases = length (filter (λ d, is_suppressed cd d = false) todo).
Proof.
  intros HP. revert i. induction todo as [|d rest IH]; intros i Hidx;
    [by exists []|].
  cbn [normal_cycle]. destruct (IH (S i)) as (phases & IH1 & IH2 & IH3).
  { intros k x Hk. replace (S i + k)%nat with (i + S k)%nat by lia.
    by apply Hidx. }
  rewrite frames_app, IH1, filter_cons.
  destruct (is_suppressed cd d) eqn:Hs.
  - exists phases. by rewrite decide_False.
  - exists (normal_frame i d :: phases). rewrite decide_True by done.
    split; [by rewrite frames_countdown|]. split; [|by cbn; rewrite IH3].
    constructor; [|done]. apply HP.
    specialize (Hidx 0%nat d eq_refl). by rewrite Nat.add_0_r in Hidx.
Qed.

(** The phases of one pass: the emergency phase of the sweep, or else the
    normal phases of the directions that are not in cooldown. *)
Lemma cycle_phases_with (P : (Z → Frame) → Prop) (cd : gmap string Z)
    (images : list Image) :
  (∀ j d, directions !! j = Some d →
     P (emergency_frame j d) ∧ P (normal_frame j d)) →
  ∃ phases,
    frames (cycle cd images).2 = pictures_of phases
    ∧ Forall P phases
    ∧ length phases
      = (if ambulance_detected cd images then 1
         else length (served (tick cd)))%nat.
Proof.
  intros HP. rewrite cycle_unfold. cbn [snd]. unfold ambulance_detected.
  change (frames (PrintCheckingAll :: ?t)) with (frames t).
  rewrite !frames_app.
  destruct (update_cooldown_trace directions (cd, [])) as [Hupd _];
    [constructor|].
  fold (update_cooldowns cd) in Hupd.
  rewrite (frames_cooldown_updates _ Hupd). cbn [app].
  assert (Hidx : ∀ k x, zip directions images !! k = Some x →
                   directions !! (0 + k)%nat = Some x.1).
  { intros k [d img] Hk.
    by apply lookup_zip_with_Some in Hk as (a & b & [= <- <-] & Ha & Hb). }
  destruct (check_directions_phases_with P (tick cd) 0 _
              (λ j d H, proj1 (HP j d H)) Hidx) as (ph1 & H1 & H1' & H1'').
  pose proof (check_directions_cooldown (tick cd) 0 (zip directions images))
    as Hcd.
  destruct (check_directions (tick cd) 0 (zip directions images))
    as [[cd2 [|]] t2]; cbn [fst snd] in *.
  - exists ph1. by rewrite app_nil_r.
  - destruct Hcd as [[_ ->]|[? _]]; [|done].
    destruct ph1; [|done]. cbn in H1. rewrite H1. cbn [app].
    change (frames (PrintNormalCycle :: ?t)) with (frames t).
    apply normal_cycle_phases_with; [|done].
    intros j d H. by apply HP.
Qed.

(** *** The display of a picture *)

Lemma emergency_frame_displayed (i : nat) (d : string) :
  directions !! i = Some d → displayed (emergency_frame i d).
Proof.
  intros H r. destruct i as [|[|[|[|i]]]]; [..|done]; injection H as <-;
    eexists; (split; [reflexivity|]); (split; [done|]); (split; [done|]);
    (split; [done|]); cbn; repeat first [by left | right].
Qed.

Lemma normal_frame_displayed (i : nat) (d : string) :
  directions !! i = Some d → displayed (normal_frame i d).
Proof.
  intros H r. destruct i as [|[|[|[|i]]]]; [..|done]; injection H as <-;
    eexists; (split; [reflexivity|]); (split; [done|]); (split; [done|]);
    (split; [done|]); cbn; repeat first [by left | right].
Qed.

(** *** The red mask *)

Lemma red_mask_cases (p : Pixel) :
  (in_red1 p ∧ red_mask p = 255%Z) ∨ (in_red2 p ∧ red_mask p = 255%Z)
  ∨ (¬ in_red1 p ∧ ¬ in_red2 p ∧ red_mask p = 0%Z).
Proof.
  destruct p as [[h sa] v].
  unfold red_mask, inRange, in_red1, in_red2, lower_red1, upper_red1,
    lower_red2, upper_red2. cbn [fst snd].
  repeat case_bool_decide; first [lia | by left | by (right; left) | idtac].
  do 2 right. repeat split; try done; lia.
Qed.

Lemma red_mask_pixel (p : Pixel) :
  (inRange lower_red1 upper_red1 p + inRange lower_red2 upper_red2 p < 256)%Z
  ∧ ¬ (in_red1 p ∧ in_red2 p)
  ∧ ((red_mask p > 0)%Z ↔ in_red1 p ∨ in_red2 p).
Proof.
  destruct p as [[h sa] v].
  unfold red_mask, inRange, in_red1, in_red2, lower_red1, upper_red1,
    lower_red2, upper_red2. cbn [fst snd].
  repeat case_bool_decide; try lia; (split; [lia|]); (split; [tauto|]);
    (split; intros H'); try tauto;
    first [by vm_compute | exfalso; revert H'; by vm_compute].
Qed.

(** *** The dictionary along a run *)

Lemma in_bounds_tick (cd : gmap string Z) : in_bounds cd → in_bounds (tick cd).
Proof.
  intros H d Hd. specialize (H d Hd). rewrite tick_at, decide_True by done.
  unfold decremented, cooldown_duration in *. case_bool_decide; lia.
Qed.

Lemma in_bounds_trigger (cd : gmap string Z) (d : string) :
  in_bounds cd → in_bounds (trigger cd d cooldown_duration).
Proof.
  intros H d' Hd'. specialize (H d' Hd'). unfold trigger.
  rewrite cooldown_at_insert. unfold cooldown_duration in *. case_decide; lia.
Qed.

(** The sweep leaves the dictionary alone or sets the cooldown of one of the
    directions it was given, one that was not in cooldown. *)
Lemma check_directions_triggered (cd : gmap string Z) (i : nat)
    (todo : list (string * Image)) :
  (check_directions cd i todo).1.1 = cd
  ∨ ∃ d, d ∈ todo.*1 ∧ is_suppressed cd d = false
         ∧ (check_directions cd i todo).1.1 = trigger cd d cooldown_duration.
Proof.
  revert i. induction todo as [|[d img] rest IH]; intros i; [by left|].
  cbn [check_directions]. specialize (IH (S i)).
  destruct (check_directions cd (S i) rest) as [[cd' b] tr]. cbn [fst] in IH.
  assert (Hgo : cd' = cd
            ∨ ∃ d0, d0 ∈ ((d, img) :: rest).*1 ∧ is_suppressed cd d0 = false
                    ∧ cd' = trigger cd d0 cooldown_duration).
  { destruct IH as [IH|(d0 & Hin & Hs & Hcd)]; [by left|right].
    exists d0. split; [by right | done]. }
  destruct (is_suppressed cd d) eqn:Hs; [done|].
  destruct img as [| |n]; [done..|].
  case_bool_decide; [|done].
  right. exists d. split; [by left | done].
Qed.

Lemma dom_insert_present (cd : gmap string Z) (d : string) (v : Z) :
  is_Some (cd !! d) → dom (<[d := v]> cd) = dom cd.
Proof. apply dom_insert_lookup_L. Qed.

Lemma dom_foldl_update_cooldown (l : list string)
    (st : gmap string Z * list Event) :
  (∀ d, d ∈ l → is_Some (st.1 !! d)) →
  dom (foldl update_cooldown st l).1 = dom st.1.
Proof.
  revert st. induction l as [|x l IH]; intros st H; [done|].
  cbn [foldl]. unfold update_cooldown at 2. case_bool_decide.
  - rewrite IH; cbn [fst].
    + apply dom_insert_present, H. by left.
    + intros d Hd. rewrite lookup_insert. case_decide; [by eexists|].
      apply H. by right.
  - apply IH. intros d Hd. apply H. by right.
Qed.

Lemma dom_tick (cd : gmap string Z) : has_keys cd → dom (tick cd) = dom cd.
Proof. intros H. by apply (dom_foldl_update_cooldown directions (cd, [])). Qed.

(** One pass keeps the keys, the key set and the bounds of the dictionary. *)
Lemma cycle_invariant (cd : gmap string Z) (images : list Image) :
  has_keys cd → in_bounds cd →
  has_keys (cycle cd images).1 ∧ in_bounds (cycle cd images).1
  ∧ dom (cycle cd images).1 = dom cd.
Proof.
  intros Hk Hb. rewrite cycle_unfold. cbn [fst].
  pose proof (has_keys_tick cd Hk) as Hk'.
  pose proof (in_bounds_tick cd Hb) as Hb'.
  destruct (check_directions_triggered (tick cd) 0 (zip directions images))
    as [->|(d & Hd & _ & ->)].
  - split; [done|]. split; [done|]. by apply dom_tick.
  - split; [by apply has_keys_insert|]. split; [by apply in_bounds_trigger|].
    unfold trigger. rewrite dom_insert_present; [by apply dom_tick|].
    apply Hk'. apply list_elem_of_fmap in Hd as ([d' img] & -> & Hd).
    by apply elem_of_zip_l in Hd.
Qed.

(** *** A direction in cooldown *)

Lemma green_directions_emergency_frame (i : nat) (direction : string) (r : Z)
    (x : string) :
  x ∈ green_directions (emergency_frame i direction r) → x = direction.
Proof.
  unfold green_directions, emergency_frame.
  intros (l & -> & Hl)%list_elem_of_fmap.
  apply list_elem_of_filter in Hl as [Hgreen Hl].
  apply list_elem_of_fmap in Hl as (d & -> & _).
  by repeat case_decide.
Qed.

Lemma green_directions_normal_frame (i : nat) (direction : string) (r : Z)
    (x : string) :
  x ∈ green_directions (normal_frame i direction r) → x = direction.
Proof.
  unfold green_directions, normal_frame.
  intros (l & -> & Hl)%list_elem_of_fmap.
  apply list_elem_of_filter in Hl as [Hgreen Hl].
  apply list_elem_of_fmap in Hl as (d & -> & _).
  by repeat case_decide.
Qed.

(** Green is only shown to directions that are not in cooldown. *)
Lemma check_directions_greens (cd : gmap string Z) (i : nat)
    (todo : list (string * Image)) :
  Forall (λ f, ∀ x, x ∈ green_directions f → is_suppressed cd x = false)
    (frames (check_directions cd i todo).2).
Proof.
  revert i. induction todo as [|[d img] rest IH]; intros i; [constructor|].
  cbn [check_directions]. specialize (IH (S i)).
  destruct (check_directions cd (S i) rest) as [[cd' b] tr]. cbn [snd] in IH.
  destruct (is_suppressed cd d) eqn:Hs; [done|].
  destruct img as [| |n]; [done..|].
  case_bool_decide; [|done]. cbn [snd].
  change (Forall (λ f, ∀ x, x ∈ green_directions f → is_suppressed cd x = false)
            (frames (countdown (emergency_frame i d)))).
  apply countdown_pictures. intros r x Hx.
  by apply green_directions_emergency_frame in Hx as ->.
Qed.

Lemma normal_cycle_greens (cd : gmap string Z) (i : nat) (todo : list string) :
  Forall (λ f, ∀ x, x ∈ green_directions f → is_suppressed cd x = false)
    (frames (normal_cycle cd i todo)).
Proof.
  revert i. induction todo as [|d rest IH]; intros i; [constructor|].
  cbn [normal_cycle]. rewrite frames_app. apply Forall_app_2; [|apply IH].
  destruct (is_suppressed cd d) eqn:Hs; [constructor|].
  apply countdown_pictures. intros r x Hx.
  by apply green_directions_normal_frame in Hx as ->.
Qed.

Lemma reads_from_not_looked_at (cd : gmap string Z) (d : string)
    (tr : list Event) :
  is_suppressed cd d = true → Forall (reads_from cd) tr →
  Forall (λ e, ¬ looks_at d e) tr.
Proof.
  intros Hs H. eapply Forall_impl; [exact H|].
  intros e He [-> | [-> | ->]]; cbn in He; congruence.
Qed.

(** A pass that starts with a cooldown of at least 2 on [d] takes 1 from it,
    does not read or detect on [d] and shows it no green. *)
Lemma cycle_suppressed (cd : gmap string Z) (images : list Image) (d : string) :
  d ∈ directions → (2 ≤ cooldown_at cd d)%Z →
  cooldown_at (cycle cd images).1 d = (cooldown_at cd d - 1)%Z
  ∧ Forall (λ e, ¬ looks_at d e) (cycle cd images).2
  ∧ Forall (λ f, d ∉ green_directions f) (frames (cycle cd images).2).
Proof.
  intros Hd Hc.
  assert (Ht : cooldown_at (tick cd) d = (cooldown_at cd d - 1)%Z).
  { rewrite tick_at, decide_True by done. unfold decremented.
    rewrite bool_decide_true by lia. lia. }
  assert (Hs : is_suppressed (tick cd) d = true).
  { unfold is_suppressed. rewrite Ht. apply bool_decide_eq_true. lia. }
  rewrite cycle_unfold. cbn [fst snd].
  pose proof (check_directions_reads_from (tick cd) 0 (zip directions images))
    as Hsweep.
  pose proof (check_directions_greens (tick cd) 0 (zip directions images))
    as Hgreen.
  pose proof (check_directions_triggered (tick cd) 0 (zip directions images))
    as Htrig.
  pose proof (check_directions_cooldown (tick cd) 0 (zip directions images))
    as Hcd.
  destruct (update_cooldown_trace directions (cd, [])) as [Hupd _];
    [constructor|].
  fold (update_cooldowns cd) in Hupd.
  destruct (check_directions (tick cd) 0 (zip directions images))
    as [[cd2 b] t2]. cbn [fst snd] in *.
  split; [|split].
  - destruct Htrig as [->|(d0 & _ & Hs0 & ->)]; [done|].
    unfold trigger. rewrite cooldown_at_insert, decide_False; [done|].
    intros ->. congruence.
  - constructor; [by intros [?|[?|?]]|].
    apply Forall_app_2.
    + eapply Forall_impl; [exact Hupd|].
      by intros e (d0 & v & ->) [?|[?|?]].
    + apply Forall_app_2; [by eapply reads_from_not_looked_at|].
      destruct b; [constructor|].
      destruct Hcd as [[_ ->]|[? _]]; [|done].
      constructor; [by intros [?|[?|?]]|].
      eapply reads_from_not_looked_at; [done|]. apply normal_cycle_reads_from.
  - change (frames (PrintCheckingAll :: ?t)) with (frames t).
    rewrite !frames_app, (frames_cooldown_updates _ Hupd). cbn [app].
    apply Forall_app_2.
    + eapply Forall_impl; [exact Hgreen|]. intros f Hf Hin.
      specialize (Hf d Hin). congruence.
    + destruct b; [constructor|].
      destruct Hcd as [[_ ->]|[? _]]; [|done].
      change (frames (PrintNormalCycle :: ?t)) with (frames t).
      eapply Forall_impl; [apply normal_cycle_greens|]. intros f Hf Hin.
      specialize (Hf d Hin). congruence.
Qed.

(** *** The images of a pass *)

(** What the sweep reads, it was given. *)
Lemma check_directions_reads_given (cd : gmap string Z) (i : nat)
    (todo : list (string * Image)) :
  Forall (λ e, ∀ d, looks_at d e → d ∈ todo.*1) (check_directions cd i todo).2.
Proof.
  revert i. induction todo as [|[d img] rest IH]; intros i; [constructor|].
  cbn [check_directions]. specialize (IH (S i)).
  destruct (check_directions cd (S i) rest) as [[cd' b] tr]. cbn [snd] in IH.
  assert (Hrest : Forall (λ e, ∀ d0, looks_at d0 e → d0 ∈ ((d, img) :: rest).*1) tr).
  { eapply Forall_impl; [exact IH|]. intros e He d0 Hd0. right. by apply He. }
  assert (Hhere : ∀ e, event_direction e = Some d →
            ∀ d0, looks_at d0 e → d0 ∈ ((d, img) :: rest).*1).
  { intros e He d0 [-> | [-> | ->]]; injection He as ->; by left. }
  destruct (is_suppressed cd d);
    [by repeat (constructor; [by apply Hhere|])|].
  destruct img as [| |n];
    [by repeat (constructor; [by apply Hhere|])..|].
  case_bool_decide; [|by repeat (constructor; [by apply Hhere|])].
  cbn [snd]. do 4 (constructor; [by apply Hhere|]).
  unfold countdown. apply Forall_fmap, Forall_true.
  by intros r d0 [?|[?|?]].
Qed.

Lemma normal_cycle_reads_nothing (cd : gmap string Z) (i : nat)
    (todo : list string) (d : string) :
  Forall (λ e, ¬ looks_at d e) (normal_cycle cd i todo).
Proof.
  revert i. induction todo as [|d0 rest IH]; intros i; [constructor|].
  cbn [normal_cycle]. apply Forall_app_2; [|apply IH].
  destruct (is_suppressed cd d0).
  - constructor; [by intros [?|[?|?]] | constructor].
  - unfold countdown. apply Forall_fmap, Forall_true. by intros r [?|[?|?]].
Qed.

Lemma in_bounds_initial : in_bounds ambulance_cooldown.
Proof.
  intros d Hd. unfold directions in Hd.
  repeat (apply elem_of_cons in Hd as [->|Hd]); [by vm_compute..|].
  by apply elem_of_nil in Hd.
Qed.

End AmbulanceFacts.

(** ** light.py *)
Module LightFacts.
Import Light.

(** *** Timers are set once *)

Lemma sensed_app (t1 t2 : list Event) : sensed (t1 ++ t2) = sensed t1 ++ sensed t2.
Proof. apply omap_app. Qed.

Lemma drawn_app (t1 t2 : list Event) : drawn (t1 ++ t2) = drawn t1 ++ drawn t2.
Proof. apply omap_app. Qed.

Lemma sensed_count_cars (files : string → ImageFile) (image_path : string) :
  sensed (count_cars files image_path).2 = [image_path].
Proof. unfold count_cars. by destruct (files image_path). Qed.

Lemma sensed_set_timers (config : TrafficConfig) (files : string → ImageFile)
    (items : list (string * string)) (timers : gmap string Z) :
  sensed (set_timers config files items timers).2 = items.*2.
Proof.
  revert timers. induction items as [|[d p] rest IH]; intros timers; [done|].
  cbn [set_timers]. pose proof (sensed_count_cars files p) as Hc.
  destruct (count_cars files p) as [c log]. cbn [snd] in Hc.
  specialize (IH (<[d := calculate_timer config c]> timers)).
  destruct (set_timers config files rest _) as [timers' tr]. cbn [snd] in *.
  rewrite sensed_app, Hc. cbn. by rewrite <- IH.
Qed.

Lemma set_timers_lookup_other (config : TrafficConfig)
    (files : string → ImageFile) (items : list (string * string))
    (timers : gmap string Z) (d : string) :
  d ∉ items.*1 →
  (set_timers config files items timers).1 !! d = timers !! d.
Proof.
  revert timers. induction items as [|[d0 p] rest IH]; intros timers Hd; [done|].
  cbn [set_timers]. destruct (count_cars files p) as [c log].
  specialize (IH (<[d0 := calculate_timer config c]> timers)).
  destruct (set_timers config files rest _) as [timers' tr]. cbn [fst] in *.
  cbn in Hd. apply not_elem_of_cons in Hd as [Hne Hd].
  rewrite IH by done. by rewrite lookup_insert_ne.
Qed.

Lemma set_timers_lookup (config : TrafficConfig) (files : string → ImageFile)
    (items : list (string * string)) (timers : gmap string Z)
    (d p : string) :
  NoDup items.*1 → (d, p) ∈ items →
  (set_timers config files items timers).1 !! d
  = Some (calculate_timer config (count_cars files p).1).
Proof.
  revert timers. induction items as [|[d0 p0] rest IH]; intros timers Hnd Hin.
  - by apply elem_of_nil in Hin.
  - cbn in Hnd. apply NoDup_cons in Hnd as [Hd0 Hnd].
    apply elem_of_cons in Hin as [[= <- <-]|Hin].
    + pose proof (set_timers_lookup_other config files rest
        (<[d := calculate_timer config (count_cars files p).1]> timers) d Hd0)
        as Hother.
      cbn [set_timers]. destruct (count_cars files p) as [c log].
      cbn [fst] in *.
      destruct (set_timers config files rest _) as [timers' tr]. cbn [fst] in *.
      by rewrite Hother, lookup_insert_eq.
    + specialize (IH (<[d0 := calculate_timer config (count_cars files p0).1]>
                        timers) Hnd Hin).
      cbn [set_timers]. destruct (count_cars files p0) as [c log].
      cbn [fst] in *.
      by destruct (set_timers config files rest _) as [timers' tr].
Qed.

Lemma green_countdown_from_timers (timers : gmap string Z) (esc : nat → bool)
    (n : nat) (active next_adjacent : string) (times : list Z) :
  Forall (from_timers timers)
    (green_countdown esc n active next_adjacent times).1.1.
Proof.
  revert n. induction times as [|r rest IH]; intros n; [constructor|].
  cbn [green_countdown]. destruct (esc n); [by repeat constructor|].
  specialize (IH (S n)).
  destruct (green_countdown esc (S n) active next_adjacent rest) as [[tr n'] st].
  by repeat (constructor; [done|]).
Qed.

Lemma phases_from_timers (timers : gmap string Z) (esc : nat → bool) (n : nat)
    (indices : list nat) :
  Forall (from_timers timers) (phases timers esc n indices).1.1.
Proof.
  revert n. induction indices as [|i rest IH]; intros n; [constructor|].
  cbn [phases]. destruct (timers !! order_at i) as [g|] eqn:Hg;
    [|by repeat constructor].
  pose proof (green_countdown_from_timers timers esc n (order_at i)
                (order_at ((i + 1) mod 4)) (range_down g 0)) as Hc.
  destruct (green_countdown esc n _ _ _) as [[tr n'] [|]]; cbn [fst] in Hc.
  - by constructor.
  - specialize (IH n'). destruct (phases timers esc n' rest) as [[tr' n''] out].
    cbn [fst] in *. constructor; [done|]. apply Forall_app_2; [done|].
    by constructor.
Qed.

Lemma cycles_from_timers (timers : gmap string Z) (esc : nat → bool) (n : nat)
    (numbers : list nat) :
  Forall (from_timers timers) (cycles timers esc n numbers).1.
Proof.
  revert n. induction numbers as [|c rest IH]; intros n; [constructor|].
  cbn [cycles]. pose proof (phases_from_timers timers esc n (seq 0 4)) as Hp.
  destruct (phases timers esc n (seq 0 4)) as [[tr n'] out]. cbn [fst] in Hp.
  destruct out; [|by constructor..].
  specialize (IH n'). destruct (cycles timers esc n' rest) as [tr' out'].
  constructor; [done|]. by apply Forall_app_2.
Qed.

Lemma sensed_from_timers (timers : gmap string Z) (tr : list Event) :
  Forall (from_timers timers) tr → sensed tr = [].
Proof. induction 1 as [|e tr He _ IH]; [done|]. by destruct e. Qed.

Lemma green_countdown_no_esc (esc : nat → bool) (n : nat)
    (active next_adjacent : string) (times : list Z) :
  (∀ k, esc k = false) →
  green_countdown esc n active next_adjacent times
  = (countdown_trace active next_adjacent times, (n + length times)%nat, false).
Proof.
  intros Hesc. revert n. induction times as [|r rest IH]; intros n.
  - cbn. by rewrite Nat.add_0_r.
  - cbn [green_countdown]. rewrite Hesc, IH. cbn [length].
    by replace (S n + length rest)%nat with (n + S (length rest))%nat by lia.
Qed.

Lemma phases_no_esc (timers : gmap string Z) (esc : nat → bool) (n m : nat)
    (indices : list nat) :
  (∀ k, esc k = false) →
  (∀ i, i ∈ indices → is_Some (timers !! order_at i)) →
  ∃ n', phases timers esc n indices
        = ((phases timers (λ _, false) m indices).1.1, n', Finished).
Proof.
  intros Hesc. revert n m. induction indices as [|i rest IH]; intros n m Hkeys.
  - by exists n.
  - destruct (Hkeys i) as [g Hg]; [by left|].
    cbn [phases]. rewrite Hg.
    rewrite !green_countdown_no_esc by done.
    destruct (IH (n + length (range_down g 0))%nat
                 (m + length (range_down g 0))%nat) as [n' Hn'].
    { intros j Hj. apply Hkeys. by right. }
    rewrite Hn'. exists n'.
    by destruct (phases timers (λ _, false) _ rest) as [[tr' n''] out].
Qed.

Lemma cycles_no_esc (timers : gmap string Z) (esc : nat → bool) (n : nat)
    (numbers : list nat) :
  (∀ k, esc k = false) →
  (∀ d, d ∈ order → is_Some (timers !! d)) →
  cycles timers esc n numbers
  = (numbers ≫= (λ c, LogCycle (Z.of_nat c + 1) :: one_cycle timers), Finished).
Proof.
  intros Hesc Hkeys. revert n. induction numbers as [|c rest IH]; intros n;
    [done|].
  cbn [cycles]. destruct (phases_no_esc timers esc n 0 (seq 0 4) Hesc) as [n' Hn'].
  { intros i Hi. apply Hkeys. cbn in Hi.
    repeat (apply elem_of_cons in Hi as [->|Hi]);
      [by apply (bool_decide_unpack (_ ∈ order)); vm_compute..|].
    by apply elem_of_nil in Hi. }
  rewrite Hn', IH. by rewrite app_comm_cons.
Qed.

Lemma set_timers_is_Some (config : TrafficConfig) (files : string → ImageFile)
    (items : list (string * string)) (timers : gmap string Z) (d : string) :
  d ∈ items.*1 ∨ is_Some (timers !! d) →
  is_Some ((set_timers config files items timers).1 !! d).
Proof.
  revert timers. induction items as [|[d0 p] rest IH]; intros timers Hd.
  - destruct Hd as [Hd|Hd]; [by apply elem_of_nil in Hd | done].
  - cbn [set_timers]. destruct (count_cars files p) as [c log].
    specialize (IH (<[d0 := calculate_timer config c]> timers)).
    destruct (set_timers config files rest _) as [timers' tr]. cbn [fst] in *.
    apply IH. destruct (decide (d = d0)) as [->|Hne].
    + right. rewrite lookup_insert_eq. by eexists.
    + destruct Hd as [Hd|Hd].
      * left. cbn in Hd. by apply elem_of_cons in Hd as [?|?].
      * right. by rewrite lookup_insert_ne.
Qed.

Lemma process_intersection_unfold (config : TrafficConfig)
    (files : string → ImageFile) (esc : nat → bool)
    (images : list (string * string)) :
  process_intersection config files esc images
  = (LogStarting :: (set_timers config files images ∅).2
       ++ (cycles (set_timers config files images ∅).1 esc 0
             (seq 0 (Z.to_nat (max_cycles config)))).1
       ++ [DestroyWindows],
     (cycles (set_timers config files images ∅).1 esc 0
        (seq 0 (Z.to_nat (max_cycles config)))).2).
Proof.
  unfold process_intersection.
  destruct (set_timers config files images ∅) as [timers tr0]. cbn [fst snd].
  by destruct (cycles timers esc 0 _) as [tr out].
Qed.

(** *** The pictures *)

Lemma draw_traffic_ui_picture (i : nat) (r : Z) :
  (i < 4)%nat →
  phase_picture (draw_traffic_ui (order_at i) (order_at ((i + 1) mod 4)) r r).
Proof.
  intros H. exists i, (order_at i), (order_at ((i + 1) mod 4)), r.
  destruct i as [|[|[|[|i]]]]; [..|lia];
    (split; [done|]); (split; [done|]); (split; [done|]); (split; [done|]);
    repeat constructor.
Qed.

Lemma green_countdown_pictures (P : Frame → Prop) (esc : nat → bool) (n : nat)
    (active next_adjacent : string) (times : list Z) :
  (∀ r, P (draw_traffic_ui active next_adjacent r r)) →
  Forall P (drawn (green_countdown esc n active next_adjacent times).1.1).
Proof.
  intros HP. revert n. induction times as [|r rest IH]; intros n; [constructor|].
  cbn [green_countdown]. destruct (esc n); [by repeat constructor|].
  specialize (IH (S n)).
  destruct (green_countdown esc (S n) active next_adjacent rest) as [[tr n'] st].
  by constructor.
Qed.

Lemma phases_pictures (timers : gmap string Z) (esc : nat → bool) (n : nat)
    (indices : list nat) :
  (∀ i, i ∈ indices → (i < 4)%nat) →
  Forall phase_picture (drawn (phases timers esc n indices).1.1).
Proof.
  revert n. induction indices as [|i rest IH]; intros n Hidx; [constructor|].
  cbn [phases]. destruct (timers !! order_at i) as [g|]; [|constructor].
  pose proof (green_countdown_pictures phase_picture esc n (order_at i)
                (order_at ((i + 1) mod 4)) (range_down g 0)) as Hc.
  destruct (green_countdown esc n _ _ _) as [[tr n'] [|]]; cbn [fst] in Hc.
  - apply Hc. intros r. apply draw_traffic_ui_picture, Hidx. by left.
  - specialize (IH n'). destruct (phases timers esc n' rest) as [[tr' n''] out].
    cbn [fst] in *.
    change (drawn (LogActivated ?a ?g :: ?t)) with (drawn t).
    rewrite drawn_app. apply Forall_app_2.
    + apply Hc. intros r. apply draw_traffic_ui_picture, Hidx. by left.
    + apply IH. intros j Hj. apply Hidx. by right.
Qed.

Lemma cycles_pictures (timers : gmap string Z) (esc : nat → bool) (n : nat)
    (numbers : list nat) :
  Forall phase_picture (drawn (cycles timers esc n numbers).1).
Proof.
  revert n. induction numbers as [|c rest IH]; intros n; [constructor|].
  cbn [cycles]. pose proof (phases_pictures timers esc n (seq 0 4)) as Hp.
  destruct (phases timers esc n (seq 0 4)) as [[tr n'] out]. cbn [fst] in Hp.
  assert (Htr : Forall phase_picture (drawn tr)).
  { apply Hp. intros i Hi%elem_of_seq. lia. }
  destruct out; [|done..].
  specialize (IH n'). destruct (cycles timers esc n' rest) as [tr' out'].
  cbn [fst] in *. change (drawn (LogCycle ?c :: ?t)) with (drawn t).
  rewrite drawn_app. by apply Forall_app_2.
Qed.

Lemma drawn_set_timers (config : TrafficConfig) (files : string → ImageFile)
    (items : list (string * string)) (timers : gmap string Z) :
  drawn (set_timers config files items timers).2 = [].
Proof.
  revert timers. induction items as [|[d p] rest IH]; intros timers; [done|].
  cbn [set_timers].
  assert (Hc : drawn (count_cars files p).2 = [])
    by (unfold count_cars; by destruct (files p)).
  destruct (count_cars files p) as [c log]. cbn [snd] in Hc.
  specialize (IH (<[d := calculate_timer config c]> timers)).
  destruct (set_timers config files rest _) as [timers' tr]. cbn [snd] in *.
  rewrite drawn_app, Hc. apply IH.
Qed.

Lemma process_intersection_drawn (config : TrafficConfig)
    (files : string → ImageFile) (esc : nat → bool)
    (images : list (string * string)) :
  drawn (process_intersection config files esc images).1
  = drawn (cycles (set_timers config files images ∅).1 esc 0
             (seq 0 (Z.to_nat (max_cycles config)))).1.
Proof.
  rewrite process_intersection_unfold. cbn [fst].
  change (drawn (LogStarting :: ?t)) with (drawn t).
  rewrite !drawn_app, drawn_set_timers. cbn. by rewrite app_nil_r.
Qed.

(** Every picture of a run is a phase picture. *)
Lemma process_intersection_pictures (config : TrafficConfig)
    (files : string → ImageFile) (esc : nat → bool)
    (images : list (string * string)) :
  Forall phase_picture (drawn (process_intersection config files esc images).1).
Proof. rewrite process_intersection_drawn. apply cycles_pictures. Qed.

(** *** The countdown of a phase *)

Lemma drawn_countdown_trace (active next_adjacent : string) (times : list Z) :
  drawn (countdown_trace active next_adjacent times)
  = (λ r, draw_traffic_ui active next_adjacent r r) <$> times.
Proof.
  induction times as [|r rest IH]; [done|]. by rewrite fmap_cons, <- IH.
Qed.

(** The phase of index [i], when its green time is [g] and nobody presses
    ESC. *)
Lemma phases_cons_no_esc (timers : gmap string Z) (esc : nat → bool) (n i : nat)
    (rest : list nat) (g : Z) :
  (∀ k, esc k = false) → timers !! order_at i = Some g →
  (phases timers esc n (i :: rest)).1.1
  = LogActivated (order_at i) g
    :: countdown_trace (order_at i) (order_at ((i + 1) mod 4)) (range_down g 0)
    ++ LogSwitching (order_at i) (order_at ((i + 1) mod 4))
    :: (phases timers esc (n + length (range_down g 0)) rest).1.1.
Proof.
  intros Hesc Hg. cbn [phases]. rewrite Hg, green_countdown_no_esc by done.
  by destruct (phases timers esc _ rest) as [[tr' n''] out].
Qed.

(** *** Images that are missing or cannot be processed *)

Lemma count_cars_failure (files : string → ImageFile) (image_path : string)
    (line : Event) :
  failure_line image_path (files image_path) = Some line →
  (count_cars files image_path).1 = 0%Z
  ∧ line ∈ (count_cars files image_path).2.
Proof.
  unfold count_cars. destruct (files image_path); [| |done];
    intros [= <-]; (split; [done|]); right; by left.
Qed.

Lemma count_cars_as_empty (files : string → ImageFile) (image_path : string) :
  (count_cars (as_empty ∘ files) image_path).1 = (count_cars files image_path).1.
Proof. unfold count_cars. cbn. by destruct (files image_path). Qed.

Lemma set_timers_as_empty (config : TrafficConfig) (files : string → ImageFile)
    (items : list (string * string)) (timers : gmap string Z) :
  (set_timers config (as_empty ∘ files) items timers).1
  = (set_timers config files items timers).1.
Proof.
  revert timers. induction items as [|[d p] rest IH]; intros timers; [done|].
  cbn [set_timers]. pose proof (count_cars_as_empty files p) as Hc.
  destruct (count_cars (as_empty ∘ files) p) as [c1 log1].
  destruct (count_cars files p) as [c log]. cbn [fst] in Hc. subst c1.
  specialize (IH (<[d := calculate_timer config c]> timers)).
  destruct (set_timers config (as_empty ∘ files) rest _) as [timers1 tr1].
  by destruct (set_timers config files rest _) as [timers2 tr2].
Qed.

Lemma process_intersection_failure_local (config : TrafficConfig)
    (files : string → ImageFile) (esc : nat → bool)
    (images : list (string * string)) :
  (process_intersection config (as_empty ∘ files) esc images).2
  = (process_intersection config files esc images).2
  ∧ drawn (process_intersection config (as_empty ∘ files) esc images).1
    = drawn (process_intersection config files esc images).1.
Proof.
  rewrite !process_intersection_drawn, !process_intersection_unfold.
  cbn [snd]. by rewrite set_timers_as_empty.
Qed.


(** *** The timers *)

Lemma calculate_timer_bounds (config : TrafficConfig) (c : Z) :
  (min_green_time config ≤ max_green_time config)%Z →
  (min_green_time config ≤ calculate_timer config c ≤ max_green_time config)%Z.
Proof. unfold calculate_timer. lia. Qed.

Lemma set_timers_bounds (config : TrafficConfig) (files : string → ImageFile)
    (items : list (string * string)) (timers : gmap string Z) (P : Z → Prop) :
  (∀ c, P (calculate_timer config c)) →
  map_Forall (λ _ g, P g) timers →
  map_Forall (λ _ g, P g) (set_timers config files items timers).1.
Proof.
  intros HP. revert timers. induction items as [|[d p] rest IH];
    intros timers Ht; [done|].
  cbn [set_timers]. destruct (count_cars files p) as [c log].
  specialize (IH (<[d := calculate_timer config c]> timers)).
  destruct (set_timers config files rest _) as [timers' tr]. cbn [fst] in *.
  apply IH. by apply map_Forall_insert_2.
Qed.

Lemma set_timers_dom (config : TrafficConfig) (files : string → ImageFile)
    (items : list (string * string)) (timers : gmap string Z) :
  dom (set_timers config files items timers).1
  = list_to_set items.*1 ∪ dom timers.
Proof.
  revert timers. induction items as [|[d p] rest IH]; intros timers.
  - cbn. by rewrite (left_id_L ∅ (∪)).
  - cbn [set_timers]. destruct (count_cars files p) as [c log].
    specialize (IH (<[d := calculate_timer config c]> timers)).
    destruct (set_timers config files rest _) as [timers' tr]. cbn [fst] in *.
    rewrite IH, dom_insert_L. cbn [fmap list_fmap fst list_to_set].
    rewrite !(assoc_L (∪)). f_equal. apply (comm_L (∪)).
Qed.

(** *** A run without ESC *)

Lemma activated_app (t1 t2 : list Event) :
  activated (t1 ++ t2) = activated t1 ++ activated t2.
Proof. apply omap_app. Qed.

Lemma countdown_trace_quiet (active next_adjacent : string) (times : list Z) :
  activated (countdown_trace active next_adjacent times) = []
  ∧ length (drawn (countdown_trace active next_adjacent times)) = length times.
Proof.
  split; [|by rewrite drawn_countdown_trace, length_fmap].
  induction times as [|r rest IH]; [done|]. apply IH.
Qed.

(** The phases of the given indices, when nobody presses ESC and every
    direction has a timer: the directions are activated in order and each
    is drawn once per second of its timer. *)
Lemma phases_quiet (timers : gmap string Z) (n : nat) (indices : list nat) :
  (∀ i, i ∈ indices → is_Some (timers !! order_at i)) →
  activated (phases timers (λ _, false) n indices).1.1 = order_at <$> indices
  ∧ length (drawn (phases timers (λ _, false) n indices).1.1)
    = sum_list ((λ i, green_seconds_of timers (order_at i)) <$> indices).
Proof.
  revert n. induction indices as [|i rest IH]; intros n Hkeys; [done|].
  destruct (Hkeys i) as [g Hg]; [by left|].
  rewrite (phases_cons_no_esc timers _ n i rest g) by done.
  destruct (IH (n + length (range_down g 0))%nat) as [IH1 IH2].
  { intros j Hj. apply Hkeys. by right. }
  destruct (countdown_trace_quiet (order_at i) (order_at ((i + 1) mod 4))
              (range_down g 0)) as [Hc1 Hc2].
  split.
  - change (activated (LogActivated ?a ?g :: ?t)) with (a :: activated t).
    rewrite activated_app, Hc1. cbn [app].
    change (activated (LogSwitching ?a ?b :: ?t)) with (activated t).
    by rewrite IH1.
  - change (drawn (LogActivated ?a ?g' :: ?t)) with (drawn t).
    rewrite drawn_app, length_app, Hc2.
    change (drawn (LogSwitching ?a ?b :: ?t)) with (drawn t).
    rewrite IH2, length_range_down. cbn [fmap list_fmap sum_list].
    assert (Hi : green_seconds_of timers (order_at i) = Z.to_nat (g - 0))
      by (unfold green_seconds_of; rewrite Hg; simpl; f_equal; lia).
    by rewrite Hi.
Qed.

Lemma cycles_trace_quiet (numbers : list nat) (cycle_trace : list Event) :
  activated (numbers ≫= (λ c, LogCycle (Z.of_nat c + 1) :: cycle_trace))
  = mjoin (replicate (length numbers) (activated cycle_trace))
  ∧ length (drawn (numbers ≫= (λ c, LogCycle (Z.of_nat c + 1) :: cycle_trace)))
    = (length numbers * length (drawn cycle_trace))%nat.
Proof.
  induction numbers as [|c rest [IH1 IH2]]; [done|].
  cbn [mbind list_bind]. split.
  - change (activated ((LogCycle ?c :: ?t) ++ ?t')) with (activated (t ++ t')).
    rewrite activated_app. cbn [length replicate mjoin list_join].
    f_equal. apply IH1.
  - change (drawn ((LogCycle ?c :: ?t) ++ ?t')) with (drawn (t ++ t')).
    rewrite drawn_app, length_app. cbn [length]. cbn [mbind] in IH2.
    rewrite IH2. lia.
Qed.

(** *** ESC *)

(** The countdown stops at the first call at which ESC is down, after
    drawing that picture; otherwise it draws one picture per second. *)
Lemma green_countdown_esc (esc : nat → bool) (n : nat)
    (active next_adjacent : string) (times : list Z) :
  (green_countdown esc n active next_adjacent times).1.2
  = (n + length (drawn (green_countdown esc n active next_adjacent times).1.1))%nat
  ∧ if (green_countdown esc n active next_adjacent times).2
    then ∃ m, length (drawn (green_countdown esc n active next_adjacent
                               times).1.1) = S m
              ∧ esc (n + m)%nat = true
              ∧ (∀ k, (n ≤ k < n + m)%nat → esc k = false)
              ∧ LogStopped ∈ (green_countdown esc n active next_adjacent
                                times).1.1
    else length (drawn (green_countdown esc n active next_adjacent times).1.1)
         = length times
         ∧ (∀ k, (n ≤ k < n + length times)%nat → esc k = false).
Proof.
  revert n. induction times as [|r rest IH]; intros n.
  - cbn. split; [lia|]. split; [done|]. intros k Hk. lia.
  - cbn [green_countdown]. destruct (esc n) eqn:Hn.
    + cbn. split; [lia|]. exists 0%nat. rewrite Nat.add_0_r.
      split; [done|]. split; [done|]. split; [intros k Hk; lia|].
      do 2 right. by left.
    + destruct (IH (S n)) as [IH1 IH2].
      destruct (green_countdown esc (S n) active next_adjacent rest)
        as [[tr n'] stopped]. cbn [fst snd] in *.
      change (drawn (Draw ?f :: LogRemaining ?a ?r' :: Sleep :: ?t))
        with (f :: drawn t). cbn [length].
      split; [lia|]. destruct stopped.
      * destruct IH2 as (m & Hm & Hesc & Hbefore & Hlog).
        exists (S m). split; [by rewrite Hm|].
        split; [by replace (n + S m)%nat with (S n + m)%nat by lia|].
        split; [|by do 3 right].
        intros k Hk. destruct (decide (k = n)) as [->|Hne]; [done|].
        apply Hbefore. lia.
      * destruct IH2 as [Hlen Hnone]. split; [by rewrite Hlen|].
        intros k Hk. destruct (decide (k = n)) as [->|Hne]; [done|].
        apply Hnone. lia.
Qed.

Lemma phases_esc (timers : gmap string Z) (esc : nat → bool) (n : nat)
    (indices : list nat) :
  (phases timers esc n indices).1.2
  = (n + length (drawn (phases timers esc n indices).1.1))%nat
  ∧ match (phases timers esc n indices).2 with
    | Stopped =>
        ∃ m, length (drawn (phases timers esc n indices).1.1) = S m
             ∧ esc (n + m)%nat = true
             ∧ (∀ k, (n ≤ k < n + m)%nat → esc k = false)
             ∧ LogStopped ∈ (phases timers esc n indices).1.1
    | _ => ∀ k, (n ≤ k < n + length (drawn (phases timers esc n indices).1.1))%nat
                → esc k = false
    end.
Proof.
  revert n. induction indices as [|i rest IH]; intros n.
  - cbn. split; [lia|]. intros k Hk. lia.
  - cbn [phases]. destruct (timers !! order_at i) as [g|].
    2:{ cbn. split; [lia|]. intros k Hk. lia. }
    destruct (green_countdown_esc esc n (order_at i) (order_at ((i + 1) mod 4))
                (range_down g 0)) as [Hc1 Hc2].
    destruct (green_countdown esc n _ _ _) as [[tr n'] stopped].
    cbn [fst snd] in *. destruct stopped.
    + cbn [fst snd]. change (drawn (LogActivated ?a ?g' :: ?t)) with (drawn t).
      split; [done|]. destruct Hc2 as (m & Hm & Hesc & Hbefore & Hlog).
      exists m. split; [done|]. split; [done|]. split; [done|]. by right.
    + destruct Hc2 as [Hlen Hnone]. destruct (IH n') as [IH1 IH2].
      destruct (phases timers esc n' rest) as [[tr' n''] out].
      cbn [fst snd] in *.
      change (drawn (LogActivated ?a ?g' :: ?t)) with (drawn t).
      rewrite drawn_app, length_app.
      change (drawn (LogSwitching ?a ?b :: ?t)) with (drawn t).
      split; [lia|].
      assert (Hquiet : ∀ k, (n ≤ k < n')%nat → esc k = false).
      { intros k Hk. apply Hnone. lia. }
      destruct out.
      * intros k Hk. destruct (decide (k < n')%nat); [apply Hquiet; lia|].
        apply IH2. lia.
      * destruct IH2 as (m & Hm & Hesc & Hbefore & Hlog).
        exists (length (drawn tr) + m)%nat. split; [lia|].
        split; [by replace (n + (length (drawn tr) + m))%nat
                     with (n' + m)%nat by lia|].
        split.
        -- intros k Hk. destruct (decide (k < n')%nat); [apply Hquiet; lia|].
           apply Hbefore. lia.
        -- right. apply elem_of_app. right. by right.
      * intros k Hk. destruct (decide (k < n')%nat); [apply Hquiet; lia|].
        apply IH2. lia.
Qed.

Lemma cycles_esc (timers : gmap string Z) (esc : nat → bool) (n : nat)
    (numbers : list nat) :
  match (cycles timers esc n numbers).2 with
  | Stopped =>
      ∃ m, length (drawn (cycles timers esc n numbers).1) = S m
           ∧ esc (n + m)%nat = true
           ∧ (∀ k, (n ≤ k < n + m)%nat → esc k = false)
           ∧ LogStopped ∈ (cycles timers esc n numbers).1
  | _ => ∀ k, (n ≤ k < n + length (drawn (cycles timers esc n numbers).1))%nat
              → esc k = false
  end.
Proof.
  revert n. induction numbers as [|c rest IH]; intros n.
  - cbn. intros k Hk. lia.
  - cbn [cycles]. destruct (phases_esc timers esc n (seq 0 4)) as [Hp1 Hp2].
    destruct (phases timers esc n (seq 0 4)) as [[tr n'] out].
    cbn [fst snd] in *. destruct out.
    + specialize (IH n'). destruct (cycles timers esc n' rest) as [tr' out'].
      cbn [fst snd] in *.
      change (drawn (LogCycle ?c' :: ?t)) with (drawn t).
      rewrite drawn_app, length_app.
      assert (Hquiet : ∀ k, (n ≤ k < n')%nat → esc k = false).
      { intros k Hk. apply Hp2. lia. }
      destruct out'.
      * intros k Hk. destruct (decide (k < n')%nat); [apply Hquiet; lia|].
        apply IH. lia.
      * destruct IH as (m & Hm & Hesc & Hbefore & Hlog).
        exists (length (drawn tr) + m)%nat. split; [lia|].
        split; [by replace (n + (length (drawn tr) + m))%nat
                     with (n' + m)%nat by lia|].
        split.
        -- intros k Hk. destruct (decide (k < n')%nat); [apply Hquiet; lia|].
           apply Hbefore. lia.
        -- right. apply elem_of_app. by right.
      * intros k Hk. destruct (decide (k < n')%nat); [apply Hquiet; lia|].
        apply IH. lia.
    + cbn [fst snd]. change (drawn (LogCycle ?c' :: ?t)) with (drawn t).
      destruct Hp2 as (m & Hm & Hesc & Hbefore & Hlog).
      exists m. split; [done|]. split; [done|]. split; [done|]. by right.
    + cbn [fst snd]. change (drawn (LogCycle ?c' :: ?t)) with (drawn t). done.
Qed.

(** *** A direction without image *)

Lemma activated_set_timers (config : TrafficConfig) (files : string → ImageFile)
    (items : list (string * string)) (timers : gmap string Z) :
  activated (set_timers config files items timers).2 = [].
Proof.
  revert timers. induction items as [|[d p] rest IH]; intros timers; [done|].
  cbn [set_timers].
  assert (Hc : activated (count_cars files p).2 = [])
    by (unfold count_cars; by destruct (files p)).
  destruct (count_cars files p) as [c log]. cbn [snd] in Hc.
  specialize (IH (<[d := calculate_timer config c]> timers)).
  destruct (set_timers config files rest _) as [timers' tr]. cbn [snd] in *.
  rewrite activated_app, Hc. apply IH.
Qed.

(** The loop over the phases fails at the first index whose direction has
    no timer, after the phases of the indices before it. *)
Lemma phases_missing (timers : gmap string Z) (esc : nat → bool) (n : nat)
    (pre : list nat) (i : nat) (post : list nat) :
  (∀ k, esc k = false) →
  (∀ j, j ∈ pre → is_Some (timers !! order_at j)) →
  timers !! order_at i = None →
  (phases timers esc n (pre ++ i :: post)).2 = Failed
  ∧ activated (phases timers esc n (pre ++ i :: post)).1.1 = order_at <$> pre
  ∧ last (phases timers esc n (pre ++ i :: post)).1.1 = Some LogSimulationError.
Proof.
  intros Hesc. revert n. induction pre as [|j pre IH]; intros n Hpre Hnone.
  - cbn [app phases]. by rewrite Hnone.
  - destruct (Hpre j) as [g Hg]; [by left|].
    cbn [app phases]. rewrite Hg, green_countdown_no_esc by done.
    destruct (IH (n + length (range_down g 0))%nat) as (IH1 & IH2 & IH3);
      [intros j' Hj'; apply Hpre; by right | done |].
    destruct (phases timers esc _ (pre ++ i :: post)) as [[tr' n''] out].
    cbn [fst snd] in *. split; [done|].
    destruct (countdown_trace_quiet (order_at j) (order_at ((j + 1) mod 4))
                (range_down g 0)) as [Hc1 _].
    split.
    + change (activated (LogActivated ?a ?g' :: ?t)) with (a :: activated t).
      rewrite activated_app, Hc1. cbn [app].
      change (activated (LogSwitching ?a ?b :: ?t)) with (activated t).
      by rewrite IH2.
    + rewrite app_comm_cons, last_app.
      change (last (LogSwitching ?a ?b :: tr')) with
        (match tr' with [] => Some (LogSwitching a b) | _ => last tr' end).
      destruct tr'; [done|]. by rewrite IH3.
Qed.


End LightFacts.

(** ** detection.py *)
Module AccidentFacts.
Import Accident.

(** *** The emergency call *)

Lemma initiations_app (t1 t2 : list Event) :
  initiations (t1 ++ t2) = (initiations t1 + initiations t2)%nat.
Proof.
  induction t1 as [|e t1 IH]; [done|]. destruct e; cbn; by rewrite ?IH.
Qed.

Lemma handle_emergency_call_initiations (t : Telephone) :
  initiations (handle_emergency_call t).1 = 1%nat.
Proof. by destruct t. Qed.

(** Once the flag is set, the loop starts no call. *)
Lemma process_video_flagged (t : Telephone) (frames : list VideoFrame) :
  initiations (process_video t frames true) = 0%nat.
Proof.
  induction frames as [|f rest IH]; [done|]. cbn [process_video negb].
  destruct (above_threshold f), (q_key f); done.
Qed.

Lemma process_video_at_most_once (t : Telephone) (frames : list VideoFrame)
    (flag : bool) :
  (initiations (process_video t frames flag) ≤ 1)%nat.
Proof.
  destruct flag; [by rewrite process_video_flagged; lia|].
  induction frames as [|f rest IH]; [cbn; lia|]. cbn [process_video negb].
  destruct (above_threshold f).
  - pose proof (handle_emergency_call_initiations t) as Hh.
    destruct (handle_emergency_call t) as [tr raised]. cbn [fst] in Hh.
    cbn [initiations]. rewrite initiations_app, Hh.
    destruct raised; [cbn; lia|].
    cbn [initiations]. destruct (q_key f); [cbn; lia|].
    rewrite process_video_flagged. lia.
  - cbn [initiations]. by destruct (q_key f); [cbn; lia|].
Qed.

(** Frames below the threshold, without [q], are shown and nothing else. *)
Lemma process_video_below (t : Telephone) (pre rest : list VideoFrame)
    (flag : bool) :
  (∀ g, g ∈ pre → above_threshold g = false ∧ q_key g = false) →
  process_video t (pre ++ rest) flag
  = replicate (length pre) ShowFrame ++ process_video t rest flag.
Proof.
  induction pre as [|g pre IH]; intros Hpre; [done|].
  destruct (Hpre g) as [Hg Hq]; [by left|].
  cbn [app process_video]. rewrite Hg, Hq, IH; [done|].
  intros g' Hg'. apply Hpre. by right.
Qed.

Lemma initiations_replicate_show (n : nat) :
  initiations (replicate n ShowFrame) = 0%nat ∧ shown (replicate n ShowFrame) = n.
Proof. induction n as [|n [IH1 IH2]]; [done|]. cbn. by rewrite IH1, IH2. Qed.

(** *** The frames of the video *)

Lemma calls_app (t1 t2 : list Event) : calls (t1 ++ t2) = calls t1 ++ calls t2.
Proof. apply omap_app. Qed.

Lemma shown_app (t1 t2 : list Event) :
  shown (t1 ++ t2) = (shown t1 + shown t2)%nat.
Proof.
  induction t1 as [|e t1 IH]; [done|]. destruct e; cbn; by rewrite ?IH.
Qed.

Lemma alerts_app (t1 t2 : list Event) :
  alerts (t1 ++ t2) = (alerts t1 + alerts t2)%nat.
Proof.
  induction t1 as [|e t1 IH]; [done|]. destruct e; cbn; by rewrite ?IH.
Qed.

Lemma handle_emergency_call_quiet (t : Telephone) :
  shown (handle_emergency_call t).1 = 0%nat
  ∧ alerts (handle_emergency_call t).1 = 0%nat
  ∧ PrintCompleted ∉ (handle_emergency_call t).1.
Proof.
  destruct t; (split; [done|]); (split; [done|]); cbn;
    rewrite ?not_elem_of_cons; by repeat split; try apply not_elem_of_nil.
Qed.

(** Once the flag is set the loop calls nobody. *)
Lemma process_video_flagged_calls (t : Telephone) (frames : list VideoFrame) :
  calls (process_video t frames true) = [].
Proof.
  induction frames as [|f rest IH]; [done|]. cbn [process_video negb].
  destruct (above_threshold f), (q_key f); done.
Qed.

(** The loop, when the status request does not raise: it ends with the
    release of the video. *)
Lemma process_video_released (t : Telephone) (frames : list VideoFrame)
    (flag : bool) :
  t ≠ StatusUnavailable →
  last (process_video t frames flag) = Some PrintCompleted.
Proof.
  intros Ht. revert flag. induction frames as [|f rest IH]; intros flag; [done|].
  cbn [process_video].
  assert (Hshow : ∀ b, last (ShowFrame :: (if q_key f then [PrintCompleted]
                                           else process_video t rest b))
                       = Some PrintCompleted).
  { intros b. destruct (q_key f); [done|]. specialize (IH b).
    by destruct (process_video t rest b). }
  destruct (above_threshold f); [|apply Hshow].
  destruct flag; cbn [negb].
  - change (last (DrawAlert ?c :: ShowFrame :: ?l)) with (last (ShowFrame :: l)).
    apply Hshow.
  - destruct t; try done; cbn [handle_emergency_call app];
      rewrite ?app_comm_cons;
      repeat (match goal with
              | |- last (_ :: ShowFrame :: ?l) = _ =>
                  change (last (ShowFrame :: l) = Some PrintCompleted)
              | |- last (?x :: ?y :: ?l) = _ =>
                  change (last (y :: l) = Some PrintCompleted)
              end); apply Hshow.
Qed.

(** The loop, when no frame that it reaches is above the threshold: it
    makes no call, whatever the telephone service would do, and ends with
    the release of the video. *)
Lemma process_video_no_alert (t : Telephone) (frames : list VideoFrame)
    (flag : bool) :
  (∀ pre f post,
     frames = pre ++ f :: post →
     (∀ g, g ∈ pre → q_key g = false) →
     above_threshold f = false) →
  last (process_video t frames flag) = Some PrintCompleted.
Proof.
  induction frames as [|f rest IH]; intros Hnone; [done|].
  cbn [process_video].
  rewrite (Hnone [] f rest eq_refl) by (intros g Hg; by apply elem_of_nil in Hg).
  destruct (q_key f) eqn:Hq; [done|].
  change (last (ShowFrame :: ?l)) with
    (match l with [] => Some ShowFrame | _ :: _ => last l end).
  assert (H : last (process_video t rest flag) = Some PrintCompleted).
  { apply IH. intros pre f' post -> Hpre. apply (Hnone (f :: pre) f' post).
    - done.
    - intros g [->|Hg]%elem_of_cons; [done | by apply Hpre]. }
  by destruct (process_video t rest flag).
Qed.

(** The loop over frames none of which has [q], when the status request
    does not raise: every frame is shown, and an alert is drawn on each
    frame above the threshold. *)
Lemma process_video_counts (t : Telephone) (frames : list VideoFrame)
    (flag : bool) :
  t ≠ StatusUnavailable →
  (∀ g, g ∈ frames → q_key g = false) →
  shown (process_video t frames flag) = length frames
  ∧ alerts (process_video t frames flag)
    = length (filter (λ g, above_threshold g = true) frames).
Proof.
  intros Ht. revert flag. induction frames as [|f rest IH]; intros flag Hq;
    [done|].
  assert (Hf : q_key f = false) by (apply Hq; by left).
  assert (Hrest : ∀ b, shown (process_video t rest b) = length rest
            ∧ alerts (process_video t rest b)
              = length (filter (λ g, above_threshold g = true) rest)).
  { intros b. apply IH. intros g Hg. apply Hq. by right. }
  cbn [process_video]. rewrite Hf, filter_cons.
  destruct (above_threshold f) eqn:Ha.
  - rewrite decide_True by done. destruct flag; cbn [negb].
    + destruct (Hrest true) as [H1 H2]. cbn. by rewrite H1, H2.
    + destruct (handle_emergency_call_quiet t) as (Hs & Hal & _).
      destruct (Hrest true) as [H1 H2].
      destruct (handle_emergency_call t) as [tr raised] eqn:Hcall.
      assert (raised = false) as -> by (destruct t; by inversion Hcall).
      cbn [fst] in *. cbn [shown alerts].
      rewrite shown_app, alerts_app, Hs, Hal. cbn. by rewrite H1, H2.
  - rewrite decide_False by congruence.
    destruct (Hrest flag) as [H1 H2]. cbn. by rewrite H1, H2.
Qed.

(** The frames after one at which [q] is down are not looked at. *)
Lemma process_video_q (t : Telephone) (pre : list VideoFrame) (f : VideoFrame)
    (post : list VideoFrame) (flag : bool) :
  q_key f = true →
  process_video t (pre ++ f :: post) flag = process_video t (pre ++ [f]) flag.
Proof.
  intros Hq. revert flag. induction pre as [|g pre IH]; intros flag.
  - cbn [app process_video]. by rewrite Hq.
  - cbn [app process_video]. by rewrite !IH.
Qed.

End AccidentFacts.

(* ===================================================================== *)
(** * Part III: the claims *)
(* ===================================================================== *)

Section AmbulanceClaims.
Import Ambulance AmbulanceFacts.

(** C1. When several approaches that are not in cooldown show an ambulance
    in one sweep, the sweep gives the emergency phase to the one with the
    lowest index in [directions]: its cooldown is set, the pictures of the
    sweep are the countdown of that approach's emergency phase, the sweep
    ends with that countdown, and no approach after it in the rotation is
    looked at (nothing is printed, read or detected for it).  The pass of
    the loop ends there too: it has no normal cycle. *)
Theorem first_emergency_in_rotation_wins (cd : gmap string Z)
    (images : list Image) (j : nat) (direction : string) (img : Image) :
  directions !! j = Some direction →
  images !! j = Some img →
  reports_emergency cd (direction, img) = true →
  (∀ j' d' img', (j' < j)%nat → directions !! j' = Some d' →
     images !! j' = Some img' → reports_emergency cd (d', img') = false) →
  (∃ before,
     check_directions cd 0 (zip directions images)
     = (trigger cd direction cooldown_duration, true,
        before ++ PrintDetected direction
        :: countdown (emergency_frame j direction))
     ∧ frames before = [])
  ∧ (∀ j' d' e, (j < j')%nat → directions !! j' = Some d' →
       e ∈ (check_directions cd 0 (zip directions images)).2 →
       event_direction e ≠ Some d')
  ∧ (∀ cd0, tick cd0 = cd →
       ∃ before,
         cycle cd0 images
         = (trigger cd direction cooldown_duration,
            before ++ PrintDetected direction
            :: countdown (emergency_frame j direction))
         ∧ frames before = []).
Proof.
  intros Hd Hi Hrep Hlow.
  destruct (sweep_first cd images j direction img Hd Hi Hrep Hlow)
    as (before & Heq & Hfr & Hev).
  split; [|split].
  - exists (before ++ [PrintChecking direction; Imread direction;
                       ProcessImage direction]).
    split; [by rewrite Heq, <- app_assoc | by rewrite frames_app, Hfr].
  - intros j' d' e Hlt Hd' He Heq'. rewrite Heq in He. cbn [snd] in He.
    assert (Hne : ∀ k, (k ≤ j)%nat → directions !! k ≠ Some d').
    { intros k Hk Hk'.
      pose proof (NoDup_lookup _ _ _ _ directions_NoDup Hk' Hd'). lia. }
    apply elem_of_app in He as [He|He].
    + destruct (Hev e He) as (k & dk & Hk & Hdk & Hek).
      apply (Hne k); [lia|]. congruence.
    + assert (Hj : direction ≠ d').
      { intros ->. by apply (Hne j). }
      do 4 (apply elem_of_cons in He as [->|He]; [cbn in Heq'; congruence|]).
      unfold countdown in He. apply list_elem_of_fmap in He as (r & -> & _).
      done.
  - intros cd0 Htick.
    destruct (update_cooldown_trace directions (cd0, [])) as [Hupd _];
      [constructor|].
    fold (update_cooldowns cd0) in Hupd.
    exists (PrintCheckingAll :: (update_cooldowns cd0).2
            ++ before ++ [PrintChecking direction; Imread direction;
                          ProcessImage direction]).
    split.
    + rewrite cycle_unfold, Htick, Heq. cbn [fst snd].
      rewrite app_nil_r, <- app_comm_cons. by rewrite <- !app_assoc.
    + change (frames (PrintCheckingAll :: ?t)) with (frames t).
      by rewrite !frames_app, frames_cooldown_updates, Hfr.
Qed.

Lemma first_emergency_in_rotation_wins_witness :
  ∃ before,
    check_directions ambulance_cooldown 0
      (zip directions [Detections 1; Unreadable; Detections 2; Detections 1])
    = (trigger ambulance_cooldown "East" cooldown_duration, true,
       before ++ PrintDetected "East" :: countdown (emergency_frame 0 "East"))
    ∧ frames before = [].
Proof.
  apply (first_emergency_in_rotation_wins ambulance_cooldown
           [Detections 1; Unreadable; Detections 2; Detections 1]
           0 "East" (Detections 1)).
  - reflexivity.
  - reflexivity.
  - by vm_compute.
  - intros j' d' img' Hlt. lia.
Defined.

(** C3. After [trigger a L] the entry of [a] is exactly [L], whatever it was
    before, and the other entries are untouched; [a] is then suppressed
    after [k] further ticks exactly when [k < L], that is for [L] ticks and
    not afterwards; and one tick takes 1 from every positive entry, never
    going below 0, and leaves an entry that is 0 as it is. *)
Theorem cooldown_window (cd : gmap string Z) (a : string) (L : Z) :
  a ∈ directions → (0 ≤ L)%Z →
  cooldown_at (trigger cd a L) a = L
  ∧ (∀ d, d ≠ a → cooldown_at (trigger cd a L) d = cooldown_at cd d)
  ∧ (∀ k : nat,
       is_suppressed (Nat.iter k tick (trigger cd a L)) a
       = bool_decide (Z.of_nat k < L)%Z)
  ∧ (∀ (cd' : gmap string Z) d, d ∈ directions →
       ((0 < cooldown_at cd' d)%Z →
          cooldown_at (tick cd') d = (cooldown_at cd' d - 1)%Z
          ∧ (0 ≤ cooldown_at (tick cd') d)%Z)
       ∧ (cooldown_at cd' d = 0%Z → cooldown_at (tick cd') d = 0%Z)).
Proof.
  intros Ha HL.
  assert (Hset : cooldown_at (trigger cd a L) a = L).
  { unfold trigger. rewrite cooldown_at_insert. by rewrite decide_True. }
  split; [done|]. split; [|split].
  - intros d Hd. unfold trigger. rewrite cooldown_at_insert.
    by rewrite decide_False.
  - intros k. unfold is_suppressed.
    rewrite ticks_at by (done || lia). rewrite Hset.
    apply bool_decide_ext. lia.
  - intros cd' d Hd. rewrite tick_at, decide_True by done.
    unfold decremented. split.
    + intros Hpos. rewrite bool_decide_true by lia. lia.
    + intros ->. by rewrite bool_decide_false by lia.
Qed.

Lemma cooldown_window_witness :
  is_suppressed (Nat.iter 29 tick (trigger ambulance_cooldown "South" 30)) "South"
  = true
  ∧ is_suppressed (Nat.iter 30 tick (trigger ambulance_cooldown "South" 30)) "South"
    = false.
Proof.
  assert (Hd : "South" ∈ directions)
    by (by apply (bool_decide_unpack ("South" ∈ directions)); vm_compute).
  destruct (cooldown_window ambulance_cooldown "South" 30 Hd ltac:(lia))
    as (_ & _ & Hk & _).
  split; [apply (Hk 29%nat) | apply (Hk 30%nat)].
Defined.

(** C5. In one pass of the loop the cooldowns are updated once, first: the
    trace of the pass is the opening line, then the cooldown updates, then
    the sweep and the rotation, which update no cooldown however many
    pictures they show and which skip and read directions according to the
    updated dictionary; at the end of the pass the cooldown of every
    direction is its value at the start decremented once, unless the sweep
    has just set it for a detected ambulance. *)
Theorem one_cooldown_update_per_cycle (cd : gmap string Z) (images : list Image) :
  ∃ sweep_and_rotation,
    (cycle cd images).2
    = PrintCheckingAll :: (update_cooldowns cd).2 ++ sweep_and_rotation
    ∧ Forall (λ e, ∃ d v, e = PrintCooldown d v) (update_cooldowns cd).2
    ∧ Forall (reads_from (tick cd)) sweep_and_rotation
    ∧ (∀ d, d ∈ directions →
         cooldown_at (cycle cd images).1 d = decremented (cooldown_at cd d)
         ∨ (cooldown_at (cycle cd images).1 d = cooldown_duration
            ∧ PrintDetected d ∈ sweep_and_rotation)).
Proof.
  rewrite cycle_unfold. cbn [fst snd].
  pose proof (check_directions_reads_from (tick cd) 0 (zip directions images))
    as Hsweep.
  pose proof (check_directions_cooldown (tick cd) 0 (zip directions images))
    as Hcd.
  destruct (check_directions (tick cd) 0 (zip directions images))
    as [[cd2 b] t2]. cbn [fst snd] in *.
  eexists. split; [done|]. split; [|split].
  - apply (update_cooldown_trace directions (cd, [])). constructor.
  - apply Forall_app_2; [done|].
    destruct Hcd as [[-> ->]|[-> _]]; [|constructor].
    constructor; [done|]. apply normal_cycle_reads_from.
  - intros d Hd. destruct Hcd as [[-> ->]|(-> & d0 & -> & Hin)].
    + left. by rewrite tick_at, decide_True.
    + unfold trigger. rewrite cooldown_at_insert.
      case_decide as Hdd; [subst d0|].
      * right. split; [done|]. apply elem_of_app. by left.
      * left. by rewrite tick_at, decide_True.
Qed.

Lemma one_cooldown_update_per_cycle_witness :
  cooldown_at
    (cycle (trigger ambulance_cooldown "East" 5)
       [Detections 0; Detections 0; Detections 0; Detections 0]).1 "East"
  = 4%Z.
Proof.
  destruct (one_cooldown_update_per_cycle (trigger ambulance_cooldown "East" 5)
              [Detections 0; Detections 0; Detections 0; Detections 0])
    as (rest & _ & _ & _ & H).
  destruct (H "East"%string) as [H1|[H2 _]].
  - by apply (bool_decide_unpack ("East"%string ∈ directions)); vm_compute.
  - rewrite H1. reflexivity.
  - by vm_compute in H2.
Defined.

(** C7. When every direction is in cooldown as the normal cycle starts, the
    normal cycle shows no picture: it is the four skipping lines and
    nothing else.  The pass whose cooldown update leaves all four in
    cooldown shows no picture at all, is at most 18 events long, and hands
    the updated dictionary to the next pass, which opens with its own
    sweep. *)
Theorem all_suppressed_rotation_idle (cd : gmap string Z) :
  (∀ d, d ∈ directions → is_suppressed cd d = true) →
  normal_cycle cd 0 directions = PrintSkipping <$> directions
  ∧ frames (normal_cycle cd 0 directions) = []
  ∧ ∀ cd0 images later, tick cd0 = cd →
      (cycle cd0 images).1 = cd
      ∧ frames (cycle cd0 images).2 = []
      ∧ (length (cycle cd0 images).2 ≤ 18)%nat
      ∧ traffic_signal_cycle cd0 (images :: later)
        = ((traffic_signal_cycle cd later).1,
           (cycle cd0 images).2 ++ (traffic_signal_cycle cd later).2)
      ∧ ∀ images' later', ∃ tr,
          (traffic_signal_cycle cd (images' :: later')).2
          = PrintCheckingAll :: tr.
Proof.
  intros Hall.
  assert (Hrot : normal_cycle cd 0 directions = PrintSkipping <$> directions)
    by by apply normal_cycle_all_suppressed.
  split; [done|]. split; [rewrite Hrot; apply frames_skipping|].
  intros cd0 images later Htick.
  assert (Hsweep : check_directions cd 0 (zip directions images)
            = (cd, false, zip directions images
                            ≫= λ x, [PrintChecking x.1; PrintSkipping x.1])).
  { apply check_directions_all_suppressed. intros [d img] Hx.
    apply Hall. by apply elem_of_zip_l in Hx. }
  destruct (update_cooldown_trace directions (cd0, [])) as [Hupd Hlen];
    [constructor|].
  fold (update_cooldowns cd0) in Hupd, Hlen. cbn [snd length] in Hlen.
  assert (Hcyc : cycle cd0 images
            = (cd, PrintCheckingAll :: (update_cooldowns cd0).2
                   ++ (zip directions images
                         ≫= λ x, [PrintChecking x.1; PrintSkipping x.1])
                   ++ PrintNormalCycle :: (PrintSkipping <$> directions))).
  { rewrite cycle_unfold, Htick, Hsweep. cbn [fst snd]. by rewrite Hrot. }
  split; [by rewrite Hcyc|]. split; [|split; [|split]].
  - rewrite Hcyc. cbn [snd].
    change (frames (PrintCheckingAll :: ?t)) with (frames t).
    rewrite !frames_app, frames_cooldown_updates, frames_checking_skipping by done.
    apply frames_skipping.
  - rewrite Hcyc. cbn [snd length].
    rewrite !length_app, length_checking_skipping, length_zip_with.
    cbn [length]. rewrite length_fmap.
    change (length directions) with 4%nat in *. lia.
  - cbn [traffic_signal_cycle]. rewrite Hcyc.
    by destruct (traffic_signal_cycle cd later).
  - intros images' later'. cbn [traffic_signal_cycle].
    rewrite cycle_unfold.
    destruct (traffic_signal_cycle _ later'). cbn [snd]. by eexists.
Qed.

Lemma all_suppressed_rotation_idle_witness :
  normal_cycle (tick (list_to_map ((λ d, (d, 30%Z)) <$> directions)))
    0 directions
  = PrintSkipping <$> directions.
Proof.
  apply (all_suppressed_rotation_idle
           (tick (list_to_map ((λ d, (d, 30%Z)) <$> directions)))).
  intros d Hd. unfold directions in Hd.
  repeat (apply elem_of_cons in Hd as [->|Hd]); [by vm_compute..|].
  by apply elem_of_nil in Hd.
Defined.

End AmbulanceClaims.

Section LightClaims.
Import Light LightFacts.

(** C4. With a configuration whose bounds are ordered, [0 ≤ min_green_time ≤
    max_green_time], and whose rate is not negative, [calculate_timer] of a
    count [c ≥ 0] is [c * cars_per_second] clamped between the two bounds,
    which is [min(max(min_green_time, c * cars_per_second),
    max_green_time)]; no vehicles give [min_green_time]; the timer does not
    decrease when the count grows; it never exceeds [max_green_time] nor
    falls below [min_green_time]; and with 5 seconds per car between 10 and
    30, the counts 0, 12, 3, 0 give 10, 30, 15, 10. *)
Theorem calculate_timer_clamps (config : TrafficConfig) :
  (0 ≤ cars_per_second config)%Z →
  (0 ≤ min_green_time config ≤ max_green_time config)%Z →
  (∀ c, (0 ≤ c)%Z →
     calculate_timer config c
     = spec_clamp (c * cars_per_second config) (min_green_time config)
         (max_green_time config)
     ∧ calculate_timer config c
       = Z.min (Z.max (min_green_time config) (c * cars_per_second config))
           (max_green_time config))
  ∧ calculate_timer config 0 = min_green_time config
  ∧ (∀ c c', (0 ≤ c ≤ c')%Z →
       (calculate_timer config c ≤ calculate_timer config c')%Z)
  ∧ (∀ c, (min_green_time config ≤ calculate_timer config c
           ≤ max_green_time config)%Z)
  ∧ calculate_timer (mkConfig 10 30 5 (yellow_time config) (max_cycles config))
      <$> [0; 12; 3; 0]%Z
    = [10; 30; 15; 10]%Z.
Proof.
  intros Hrate Hbounds. unfold calculate_timer, spec_clamp.
  split; [|split; [|split; [|split]]].
  - intros c Hc. split; [|done]. repeat case_bool_decide; lia.
  - lia.
  - intros c c' Hcc'. nia.
  - intros c. lia.
  - done.
Qed.

Lemma calculate_timer_clamps_witness :
  calculate_timer default_config 0 = 10%Z
  ∧ (calculate_timer default_config 3 ≤ calculate_timer default_config 12)%Z.
Proof.
  destruct (calculate_timer_clamps default_config) as (_ & H0 & Hmono & _).
  - cbn. lia.
  - cbn. lia.
  - split; [exact H0 | apply Hmono; lia].
Defined.

(** C10. The run is the start line, then the loop that looks at each image
    of [images] once, in order, and fills [timers], then the cycles, then
    the closing of the window.  The cycles look at no image; every green
    time they announce is the entry of [timers] for that direction, which
    is [calculate_timer] of the count of the direction's image.  When
    nobody presses ESC and [images] has the four directions, the run
    finishes and all [max_cycles] cycles have the same trace up to the
    cycle number. *)
Theorem timers_set_once (config : TrafficConfig) (files : string → ImageFile)
    (esc : nat → bool) (images : list (string * string)) :
  ∃ cycles_trace,
    (process_intersection config files esc images).1
    = LogStarting :: (set_timers config files images ∅).2
      ++ cycles_trace ++ [DestroyWindows]
    ∧ sensed (set_timers config files images ∅).2 = images.*2
    ∧ sensed cycles_trace = []
    ∧ Forall (from_timers (set_timers config files images ∅).1) cycles_trace
    ∧ (∀ d p, NoDup images.*1 → (d, p) ∈ images →
         (set_timers config files images ∅).1 !! d
         = Some (calculate_timer config (count_cars files p).1))
    ∧ ((∀ k, esc k = false) → (∀ d, d ∈ order → d ∈ images.*1) →
       (process_intersection config files esc images).2 = Finished
       ∧ cycles_trace
         = seq 0 (Z.to_nat (max_cycles config))
           ≫= (λ c, LogCycle (Z.of_nat c + 1)
                    :: one_cycle (set_timers config files images ∅).1)).
Proof.
  rewrite process_intersection_unfold. cbn [fst snd].
  eexists. split; [done|].
  pose proof (cycles_from_timers (set_timers config files images ∅).1 esc 0
                (seq 0 (Z.to_nat (max_cycles config)))) as Hfrom.
  split; [apply sensed_set_timers|].
  split; [by eapply sensed_from_timers|].
  split; [done|]. split.
  - intros d p Hnd Hin. by apply set_timers_lookup.
  - intros Hesc Hall. rewrite cycles_no_esc; [done..|].
    intros d Hd. apply set_timers_is_Some. left. by apply Hall.
Qed.

Lemma timers_set_once_witness :
  (process_intersection default_config (λ _, Vehicles 3) (λ _, false)
     main_images).2 = Finished
  ∧ (set_timers default_config (λ _, Vehicles 3) main_images ∅).1 !! "East"%string
    = Some 15%Z.
Proof.
  destruct (timers_set_once default_config (λ _, Vehicles 3) (λ _, false)
              main_images) as (tr & _ & _ & _ & _ & Hlook & Hrun).
  split.
  - apply Hrun; [done|]. intros d Hd. unfold order in Hd.
    repeat (apply elem_of_cons in Hd as [->|Hd]);
      [by apply (bool_decide_unpack (_ ∈ main_images.*1)); vm_compute..|].
    by apply elem_of_nil in Hd.
  - apply (Hlook "East"%string "asdas.jpg"%string).
    + by apply (bool_decide_unpack (NoDup main_images.*1)); vm_compute.
    + by apply (bool_decide_unpack (_ ∈ main_images)); vm_compute.
Defined.

End LightClaims.

Section AccidentClaims.
Import Accident AccidentFacts.

(** C9. A run starts the emergency call sequence at most once.  When the
    model loads and the video opens, the sequence starts at the first frame
    whose confidence is above 90 (if the frames before it did not end the
    run): before it only those frames have been shown, and nothing after it
    starts the sequence again, however many later frames are above 90.  A
    video without such a frame starts no call. *)
Theorem emergency_call_at_most_once (w : World) :
  (initiations (main w) ≤ 1)%nat
  ∧ (∀ pre f post,
       model_loads w = true → video_opens w = true →
       video w = pre ++ f :: post →
       (∀ g, g ∈ pre → above_threshold g = false ∧ q_key g = false) →
       above_threshold f = true →
       ∃ before after,
         main w = before ++ DrawAlert (confidence f) :: PrintInitiating :: after
         ∧ initiations before = 0%nat
         ∧ shown before = length pre
         ∧ initiations after = 0%nat)
  ∧ ((∀ g, g ∈ video w → above_threshold g = false) →
     initiations (main w) = 0%nat).
Proof.
  split; [|split].
  - unfold main. destruct (model_loads w); [|cbn; lia].
    destruct (video_opens w); [|cbn; lia].
    apply (process_video_at_most_once (telephone w) (video w) false).
  - intros pre f post Hm Hv Hvideo Hpre Hf.
    unfold main. rewrite Hm, Hv, Hvideo, process_video_below by done.
    cbn [process_video negb]. rewrite Hf.
    exists ([PrintLoading; PrintLoaded; PrintOpening; PrintProcessing]
            ++ replicate (length pre) ShowFrame).
    destruct (initiations_replicate_show (length pre)) as [Hi Hs].
    destruct (telephone w); cbn [handle_emergency_call];
      eexists; (split; [by rewrite <- app_assoc|]); (split; [done|]);
      (split; [done|]); cbn [app initiations];
      try done; destruct (q_key f); try done; apply process_video_flagged.
  - intros Hbelow. unfold main. destruct (model_loads w); [|done].
    destruct (video_opens w); [|done]. cbn [initiations].
    generalize false. induction (video w) as [|g rest IH]; intros flag; [done|].
    cbn [process_video]. rewrite Hbelow by (by left). cbn [initiations].
    destruct (q_key g); [done|]. apply IH. intros g' Hg'. apply Hbelow. by right.
Qed.

Lemma emergency_call_at_most_once_witness :
  ∃ before after,
    main (mkWorld true true
            [mkFrame (Finite 90) false; mkFrame (Finite 95) false;
             mkFrame (Finite 99) false] CallUnanswered)
    = before ++ DrawAlert (confidence (mkFrame (Finite 95) false))
      :: PrintInitiating :: after
    ∧ initiations before = 0%nat
    ∧ shown before = 1%nat
    ∧ initiations after = 0%nat.
Proof.
  destruct (emergency_call_at_most_once
              (mkWorld true true
                 [mkFrame (Finite 90) false; mkFrame (Finite 95) false;
                  mkFrame (Finite 99) false] CallUnanswered)) as (_ & H & _).
  apply (H [mkFrame (Finite 90) false] (mkFrame (Finite 95) false)
           [mkFrame (Finite 99) false]).
  - reflexivity.
  - reflexivity.
  - reflexivity.
  - intros g Hg. apply list_elem_of_singleton in Hg as ->. by vm_compute.
  - by vm_compute.
Defined.

End AccidentClaims.

(** C2, as the claim states it, fails in [light.py]: in the first picture
    of a run with North green, the next direction East is yellow and the
    text under it is "Wait: 10s"; no status NEXT is written. *)
Lemma next_status_counterexample :
  let run := Light.process_intersection (Light.mkConfig 10 30 5 3 1)
               (λ _, Light.Vehicles 0) (λ _, false) Light.main_images in
  ∃ f s,
    head (Light.drawn run.1) = Some f
    ∧ f !! 1%nat = Some s
    ∧ Light.s_direction s = "East"%string
    ∧ Light.s_color s = yellow
    ∧ Light.label_text (Light.s_text s) = "Wait: 10s"%string
    ∧ Light.label_text (Light.s_text s) ≠ "NEXT"%string.
Proof. eexists _, _. by vm_compute. Qed.

(** C2, amended.  In the ambulance scheduler every picture of every pass has exactly
    one green light, on the active direction at some index [i] of the
    rotation, with the remaining time under it; the direction at index
    [(i + 1) mod 4] has status NEXT and the same remaining time, yellow in a
    normal phase and red in an emergency phase; the other lights are red
    and have no timer.  Pictures of a pass whose sweep detects an ambulance
    are emergency pictures, those of the other passes are normal ones.  In
    the scheduler of [light.py], which has normal phases only and writes no
    status, every picture has exactly one green signal, on the active
    direction, the next direction in [order] is yellow and carries the same
    remaining time, and the other signals are red and carry none. *)
Theorem one_green_and_next_marked :
  (∀ cd images,
     Forall (Ambulance.phase_picture (Ambulance.ambulance_detected cd images))
       (Ambulance.frames (Ambulance.cycle cd images).2))
  ∧ (∀ cd world,
       Forall (λ f, Ambulance.phase_picture true f
                    ∨ Ambulance.phase_picture false f)
         (Ambulance.frames (Ambulance.traffic_signal_cycle cd world).2))
  ∧ (∀ config files esc images,
       Forall Light.phase_picture
         (Light.drawn (Light.process_intersection config files esc images).1)).
Proof.
  split; [|split].
  - apply AmbulanceFacts.cycle_pictures.
  - apply AmbulanceFacts.run_pictures.
  - apply LightFacts.process_intersection_pictures.
Qed.




(** C8. In the ambulance scheduler an image that cannot be read, or on
    which detection raises, counts as an image without ambulance: a run
    ends with the same cooldowns and shows the same pictures as the run in
    which every such image is replaced by one without detections; the
    sweep prints an error line for the image when it reaches it and goes on
    with the directions after it.  In [light.py] an image that is missing,
    or on which counting raises, counts as zero vehicles and an error is
    logged; every image of the dictionary is still looked at, and the run
    shows the same pictures and ends the same way as with images without
    vehicles in their place. *)
Theorem perception_failure_is_local :
  (∀ cd world,
     (Ambulance.traffic_signal_cycle cd
        ((λ images : list Ambulance.Image,
            Ambulance.as_no_emergency <$> images) <$> world)).1
     = (Ambulance.traffic_signal_cycle cd world).1
     ∧ Ambulance.frames
         (Ambulance.traffic_signal_cycle cd
            ((λ images : list Ambulance.Image,
                Ambulance.as_no_emergency <$> images) <$> world)).2
       = Ambulance.frames (Ambulance.traffic_signal_cycle cd world).2)
  ∧ (∀ cd images k d img line,
       Ambulance.directions !! k = Some d →
       images !! k = Some img →
       Ambulance.failure_line d img = Some line →
       Ambulance.is_suppressed cd d = false →
       (∀ k' d' img', (k' < k)%nat → Ambulance.directions !! k' = Some d' →
          images !! k' = Some img' →
          Ambulance.reports_emergency cd (d', img') = false) →
       ∃ before,
         Ambulance.check_directions cd 0 (zip Ambulance.directions images)
         = ((Ambulance.check_directions cd (S k)
               (drop (S k) (zip Ambulance.directions images))).1,
            before ++ line
            :: (Ambulance.check_directions cd (S k)
                  (drop (S k) (zip Ambulance.directions images))).2)
         ∧ Ambulance.frames before = [])
  ∧ (∀ files image_path line,
       Light.failure_line image_path (files image_path) = Some line →
       (Light.count_cars files image_path).1 = 0%Z
       ∧ line ∈ (Light.count_cars files image_path).2)
  ∧ (∀ config files images timers,
       Light.sensed (Light.set_timers config files images timers).2 = images.*2)
  ∧ (∀ config files esc images,
       (Light.process_intersection config (Light.as_empty ∘ files) esc images).2
       = (Light.process_intersection config files esc images).2
       ∧ Light.drawn
           (Light.process_intersection config (Light.as_empty ∘ files) esc
              images).1
         = Light.drawn (Light.process_intersection config files esc images).1).
Proof.
  split; [apply AmbulanceFacts.run_failure_local|].
  split; [apply AmbulanceFacts.sweep_failure_logged|].
  split; [apply LightFacts.count_cars_failure|].
  split; [apply LightFacts.sensed_set_timers|].
  apply LightFacts.process_intersection_failure_local.
Qed.

Lemma perception_failure_is_local_witness :
  (∃ before,
     Ambulance.check_directions Ambulance.ambulance_cooldown 0
       (zip Ambulance.directions
          [Ambulance.Unreadable; Ambulance.Detections 1])
     = ((Ambulance.check_directions Ambulance.ambulance_cooldown 1
           (drop 1 (zip Ambulance.directions
                      [Ambulance.Unreadable; Ambulance.Detections 1]))).1,
        before ++ Ambulance.PrintReadError "East"
        :: (Ambulance.check_directions Ambulance.ambulance_cooldown 1
              (drop 1 (zip Ambulance.directions
                         [Ambulance.Unreadable; Ambulance.Detections 1]))).2)
     ∧ Ambulance.frames before = [])
  ∧ (Light.count_cars (λ _, Light.Missing) "as.jpg").1 = 0%Z.
Proof.
  destruct perception_failure_is_local as (_ & Hsweep & Hcount & _).
  split.
  - apply (Hsweep Ambulance.ambulance_cooldown
             [Ambulance.Unreadable; Ambulance.Detections 1] 0%nat
             "East"%string Ambulance.Unreadable).
    + reflexivity.
    + reflexivity.
    + reflexivity.
    + by vm_compute.
    + intros k' d' img' Hlt. lia.
  - apply (Hcount (λ _, Light.Missing) "as.jpg"%string
             (Light.LogImageNotFound "as.jpg")). reflexivity.
Defined.

(* ===================================================================== *)
(** * Part IV: further properties of the programs *)
(* ===================================================================== *)

Section AmbulanceFurther.
Import Ambulance AmbulanceFacts.

(** X1. The two hue ranges of the red mask are disjoint, so the byte sum
    [mask1 + mask2] never wraps: the mask is positive exactly on the pixels
    of one of the two ranges, and the number of red pixels is the number of
    pixels in the first range plus the number in the second, between 0 and
    the number of pixels. *)
Theorem red_mask_is_a_disjoint_union (hsv : list Pixel) :
  Forall (λ p,
            (inRange lower_red1 upper_red1 p + inRange lower_red2 upper_red2 p
             < 256)%Z
            ∧ ¬ (in_red1 p ∧ in_red2 p)
            ∧ ((red_mask p > 0)%Z ↔ in_red1 p ∨ in_red2 p)) hsv
  ∧ red_pixels hsv
    = (Z.of_nat (length (filter in_red1 hsv))
       + Z.of_nat (length (filter in_red2 hsv)))%Z
  ∧ (0 ≤ red_pixels hsv ≤ Z.of_nat (length hsv))%Z.
Proof.
  split; [apply Forall_true, red_mask_pixel|]. unfold red_pixels. split.
  - induction hsv as [|p hsv IH]; [done|]. rewrite !filter_cons.
    destruct (red_mask_cases p) as [[H1 Hm]|[[H2 Hm]|(H1 & H2 & Hm)]].
    + assert (H2 : ¬ in_red2 p) by (pose proof (red_mask_pixel p); tauto).
      rewrite (decide_True (P := (red_mask p > 0)%Z)) by lia.
      rewrite (decide_True (P := in_red1 p)), (decide_False (P := in_red2 p))
        by done.
      cbn [length]. lia.
    + assert (H1 : ¬ in_red1 p) by (pose proof (red_mask_pixel p); tauto).
      rewrite (decide_True (P := (red_mask p > 0)%Z)) by lia.
      rewrite (decide_False (P := in_red1 p)), (decide_True (P := in_red2 p))
        by done.
      cbn [length]. lia.
    + rewrite (decide_False (P := (red_mask p > 0)%Z)) by lia.
      rewrite (decide_False (P := in_red1 p)), (decide_False (P := in_red2 p))
        by done.
      lia.
  - pose proof (length_filter (λ p, (red_mask p > 0)%Z) hsv). lia.
Qed.

(** X2. [process_image] answers that there is an ambulance as soon as the
    detector returns a row, whatever its confidence: boxes are drawn only
    for the rows whose confidence reaches the threshold, so when every row
    is below it nothing is drawn on the image and the answer is still yes.
    It is this answer, with the cooldown, that makes the sweep preempt. *)
Theorem process_image_ignores_confidence (detections : list Detection)
    (conf_threshold : Q) :
  ((process_image detections conf_threshold).2 = true ↔ detections ≠ [])
  ∧ length (bounding_boxes (process_image detections conf_threshold).1)
    = length (filter (λ det, Qle_bool conf_threshold (conf det) = true)
                detections)
  ∧ (length (bounding_boxes (process_image detections conf_threshold).1)
     ≤ length detections)%nat
  ∧ last (process_image detections conf_threshold).1 = Some ShowImage
  ∧ (Forall (λ det, Qle_bool conf_threshold (conf det) = false) detections →
     bounding_boxes (process_image detections conf_threshold).1 = [])
  ∧ (∀ cd d,
       reports_emergency cd (d, image_of detections)
       = negb (is_suppressed cd d)
         && (process_image detections conf_threshold).2).
Proof.
  assert (Hboxes : ∀ l : list Detection,
            bounding_boxes
              ((l ≫= λ det, [BoundingBox (int (box_x1 det)) (int (box_y1 det))
                                         (int (box_x2 det)) (int (box_y2 det));
                             BoxLabel (conf det) (int (box_x1 det))
                                      (int (box_y1 det) - 10)%Z])
               ++ [ShowImage])
            = (λ det, (int (box_x1 det), int (box_y1 det), int (box_x2 det),
                       int (box_y2 det))) <$> l).
  { induction l as [|det l IH]; [done|]. cbn. f_equal. apply IH. }
  unfold process_image. cbn [fst snd]. rewrite Hboxes, length_fmap.
  split; [|split; [done|split; [apply length_filter|split; [|split]]]].
  - destruct detections; cbn; [split; [done|congruence]|].
    split; [done|]. intros _. apply bool_decide_eq_true. cbn. lia.
  - apply last_snoc.
  - intros Hall. induction Hall as [|det l Hdet _ IH]; [done|].
    rewrite filter_cons, decide_False by congruence. apply IH.
  - done.
Qed.

Lemma process_image_ignores_confidence_witness :
  (process_image [mkDetection 10 20 110 220 (1 # 2) 0] (85 # 100)).2 = true
  ∧ bounding_boxes
      (process_image [mkDetection 10 20 110 220 (1 # 2) 0] (85 # 100)).1 = [].
Proof.
  destruct (process_image_ignores_confidence
              [mkDetection 10 20 110 220 (1 # 2) 0] (85 # 100))
    as (Hres & _ & _ & _ & Hnone & _).
  split.
  - apply Hres. discriminate.
  - apply Hnone. repeat constructor.
Defined.

(** X3. Every picture of a pass is displayed without a missing position:
    the pictures of the pass are those of its phases, and at every second
    of a phase the display has four filled circles, exactly one of them
    green, and eleven texts among which the remaining time; the last
    picture of a phase, at 0 seconds, writes "0s". *)
Theorem every_picture_is_displayed (cd : gmap string Z) (images : list Image) :
  ∃ phases,
    frames (cycle cd images).2 = pictures_of phases
    ∧ Forall displayed phases
    ∧ Forall (λ phase, ∃ paints, render (phase 0%Z) = Some paints
                                 ∧ "0s"%string ∈ texts paints) phases
    ∧ last (range_down signal_duration (-1)) = Some 0%Z.
Proof.
  destruct (cycle_phases_with displayed cd images) as (phases & H1 & H2 & _).
  { intros j d Hd. split;
      [by apply emergency_frame_displayed | by apply normal_frame_displayed]. }
  exists phases. split; [done|]. split; [done|]. split; [|done].
  eapply Forall_impl; [exact H2|]. intros phase Hphase.
  destruct (Hphase 0%Z) as (paints & Hr & _ & _ & _ & Hin). by exists paints.
Qed.

(** X4. A pass shows 11 pictures for each phase: 11 when its sweep detects
    an ambulance, and otherwise 11 for every direction that is not in
    cooldown after the update, so at most 44 and none when all four are in
    cooldown. *)
Theorem pictures_per_pass (cd : gmap string Z) (images : list Image) :
  length (frames (cycle cd images).2)
  = (11 * (if ambulance_detected cd images then 1
           else length (served (tick cd))))%nat
  ∧ (length (frames (cycle cd images).2) ≤ 44)%nat.
Proof.
  destruct (cycle_phases_with (λ _, True) cd images) as (phases & H1 & _ & H3);
    [done|].
  rewrite H1, length_pictures_of, H3.
  split; [done|].
  pose proof (length_filter (λ d, is_suppressed (tick cd) d = false) directions)
    as Hle.
  fold (served (tick cd)) in Hle. change (length directions) with 4%nat in Hle.
  destruct (ambulance_detected cd images); lia.
Qed.

(** X5. Along a run the cooldown dictionary keeps its keys and every
    cooldown stays between 0 and 30: from a dictionary that has the four
    directions and respects the bounds, as the initial one does, every run
    ends with a dictionary that has the same key set and respects the
    bounds. *)
Theorem cooldown_dictionary_invariant (cd : gmap string Z)
    (world : list (list Image)) :
  has_keys cd → in_bounds cd →
  has_keys (traffic_signal_cycle cd world).1
  ∧ in_bounds (traffic_signal_cycle cd world).1
  ∧ dom (traffic_signal_cycle cd world).1 = dom cd.
Proof.
  revert cd. induction world as [|images later IH]; intros cd Hk Hb; [done|].
  cbn [traffic_signal_cycle].
  destruct (cycle_invariant cd images Hk Hb) as (H1 & H2 & H3).
  destruct (cycle cd images) as [cd1 t1]. cbn [fst] in *.
  destruct (IH cd1 H1 H2) as (IH1 & IH2 & IH3).
  destruct (traffic_signal_cycle cd1 later) as [cd2 t2]. cbn [fst] in *.
  split; [done|]. split; [done|]. congruence.
Qed.

Lemma cooldown_dictionary_invariant_witness :
  dom (traffic_signal_cycle ambulance_cooldown
         [[Detections 0; Detections 1; Detections 0; Detections 0];
          [Detections 1; Detections 1; Detections 0; Detections 0]]).1
  = dom ambulance_cooldown.
Proof.
  apply (cooldown_dictionary_invariant ambulance_cooldown
           [[Detections 0; Detections 1; Detections 0; Detections 0];
            [Detections 1; Detections 1; Detections 0; Detections 0]]).
  - apply has_keys_initial.
  - apply in_bounds_initial.
Defined.

(** X6. A direction in cooldown gets no green at all.  For as many passes
    as its cooldown exceeds, whatever the images show, every pass takes 1
    from the cooldown of the direction, none reads its image or detects an
    ambulance on it, and no picture shows its light green, neither in an
    emergency phase nor in a normal one.  After a detection the cooldown is
    30, so this lasts 29 passes. *)
Theorem cooldown_blocks_all_green (cd : gmap string Z)
    (world : list (list Image)) (d : string) :
  d ∈ directions → (Z.of_nat (length world) < cooldown_at cd d)%Z →
  cooldown_at (traffic_signal_cycle cd world).1 d
  = (cooldown_at cd d - Z.of_nat (length world))%Z
  ∧ Forall (λ e, ¬ looks_at d e) (traffic_signal_cycle cd world).2
  ∧ Forall (λ f, d ∉ green_directions f)
      (frames (traffic_signal_cycle cd world).2).
Proof.
  intros Hd. revert cd. induction world as [|images later IH]; intros cd Hc.
  - cbn. split; [lia|]. by split.
  - cbn [length] in Hc. cbn [traffic_signal_cycle].
    destruct (cycle_suppressed cd images d Hd) as (H1 & H2 & H3); [lia|].
    destruct (cycle cd images) as [cd1 t1]. cbn [fst snd] in *.
    destruct (IH cd1) as (IH1 & IH2 & IH3); [lia|].
    destruct (traffic_signal_cycle cd1 later) as [cd2 t2]. cbn [fst snd] in *.
    split; [cbn [length]; lia|]. split; [by apply Forall_app_2|].
    rewrite frames_app. by apply Forall_app_2.
Qed.

Lemma cooldown_blocks_all_green_witness :
  cooldown_at
    (traffic_signal_cycle (trigger ambulance_cooldown "South" cooldown_duration)
       (replicate 29 [Detections 0; Detections 3; Detections 0; Detections 0])).1
    "South"
  = 1%Z.
Proof.
  destruct (cooldown_blocks_all_green
              (trigger ambulance_cooldown "South" cooldown_duration)
              (replicate 29 [Detections 0; Detections 3; Detections 0;
                             Detections 0]) "South") as (H & _ & _).
  - by apply (bool_decide_unpack ("South"%string ∈ directions)); vm_compute.
  - by vm_compute.
  - rewrite H. reflexivity.
Defined.

(** X7. The sweep reads the image of a direction only if the list of images
    has an entry at the index of the direction: images after the fourth
    are ignored, and with fewer than four images the directions left
    without image are never read, nor is any ambulance detected on them;
    with no image at all the sweep detects nothing. *)
Theorem only_given_images_are_read (cd : gmap string Z) (images : list Image) :
  cycle cd (take 4 images) = cycle cd images
  ∧ (∀ d e, e ∈ (cycle cd images).2 → looks_at d e →
       ∃ k img, directions !! k = Some d ∧ images !! k = Some img)
  ∧ ambulance_detected cd [] = false.
Proof.
  split; [|split; [|done]].
  - unfold cycle.
    change 4%nat with (length directions).
    by rewrite (zip_with_take_r pair directions images).
  - intros d e He Hlook. rewrite cycle_unfold in He. cbn [snd] in He.
    destruct (update_cooldown_trace directions (cd, [])) as [Hupd _];
      [constructor|].
    fold (update_cooldowns cd) in Hupd.
    pose proof (check_directions_reads_given (tick cd) 0
                  (zip directions images)) as Hgiven.
    pose proof (check_directions_cooldown (tick cd) 0 (zip directions images))
      as Hcd.
    destruct (check_directions (tick cd) 0 (zip directions images))
      as [[cd2 b] t2]. cbn [fst snd] in *.
    apply elem_of_cons in He as [->|He]; [by destruct Hlook as [?|[?|?]]|].
    apply elem_of_app in He as [He|He].
    { apply (proj1 (Forall_forall _ _) Hupd) in He as (d0 & v & ->).
      by destruct Hlook as [?|[?|?]]. }
    apply elem_of_app in He as [He|He].
    + pose proof (proj1 (Forall_forall _ _) Hgiven e He d Hlook) as Hd.
      apply list_elem_of_fmap in Hd as ([d' img] & -> & Hin).
      apply list_elem_of_lookup in Hin as [k Hk].
      apply lookup_zip_with_Some in Hk as (a & c & [= <- <-] & Ha & Hc).
      by exists k, img.
    + destruct b; [by apply elem_of_nil in He|].
      apply elem_of_cons in He as [->|He]; [by destruct Hlook as [?|[?|?]]|].
      pose proof (normal_cycle_reads_nothing cd2 0 directions d) as Hn.
      by destruct (proj1 (Forall_forall _ _) Hn e He).
Qed.

End AmbulanceFurther.

Section LightFurther.
Import Light LightFacts.



(** X9. With [min_green_time ≤ max_green_time], every timer that the loop
    over the images stores lies between the two, whatever the images; and
    the directions that have a timer are exactly the keys of the image
    dictionary. *)
Theorem timers_within_bounds (config : TrafficConfig)
    (files : string → ImageFile) (images : list (string * string)) :
  (min_green_time config ≤ max_green_time config)%Z →
  (∀ d g, (set_timers config files images ∅).1 !! d = Some g →
     (min_green_time config ≤ g ≤ max_green_time config)%Z)
  ∧ dom (set_timers config files images ∅).1 = list_to_set images.*1
  ∧ (∀ d, d ∉ images.*1 → (set_timers config files images ∅).1 !! d = None).
Proof.
  intros Hle. split; [|split].
  - intros d g Hg.
    apply (set_timers_bounds config files images ∅
             (λ g, (min_green_time config ≤ g ≤ max_green_time config)%Z)
             (λ c, calculate_timer_bounds config c Hle)
             (map_Forall_empty _) d g Hg).
  - rewrite set_timers_dom, dom_empty_L. by rewrite (right_id_L ∅ (∪)).
  - intros d Hd. by rewrite set_timers_lookup_other.
Qed.

Lemma timers_within_bounds_witness :
  (min_green_time default_config ≤ max_green_time default_config)%Z
  ∧ ∃ g, (set_timers default_config (λ _, Vehicles 50) main_images ∅).1
           !! "North"%string = Some g
         ∧ (10 ≤ g ≤ 30)%Z.
Proof.
  assert (Hle : (min_green_time default_config
                 ≤ max_green_time default_config)%Z) by (cbn; lia).
  split; [exact Hle|].
  destruct (timers_within_bounds default_config (λ _, Vehicles 50) main_images
              Hle) as (Hbounds & _ & _).
  exists 30%Z. split; [by vm_compute|].
  apply (Hbounds "North"%string 30%Z). by vm_compute.
Defined.

(** X10. A run in which nobody presses ESC and every direction has an
    image gives green to North, East, South and West in this order in each
    of the [max_cycles] cycles, and draws one picture per second of each
    timer: [max_cycles] times the sum of the four timers in all, none when
    [max_cycles] is not positive. *)
Theorem quiet_run_rotation (config : TrafficConfig) (files : string → ImageFile)
    (esc : nat → bool) (images : list (string * string)) :
  (∀ k, esc k = false) → (∀ d, d ∈ order → d ∈ images.*1) →
  let timers := (set_timers config files images ∅).1 in
  let run := process_intersection config files esc images in
  run.2 = Finished
  ∧ activated run.1 = mjoin (replicate (Z.to_nat (max_cycles config)) order)
  ∧ length (drawn run.1)
    = (Z.to_nat (max_cycles config)
       * sum_list (green_seconds_of timers <$> order))%nat.
Proof.
  intros Hesc Hall timers run. subst run.
  assert (Hkeys : ∀ d, d ∈ order → is_Some (timers !! d)).
  { intros d Hd. apply set_timers_is_Some. left. by apply Hall. }
  destruct (phases_quiet timers 0 (seq 0 4)) as [Hact Hlen].
  { intros i Hi. apply Hkeys. cbn in Hi.
    repeat (apply elem_of_cons in Hi as [->|Hi]);
      [by apply (bool_decide_unpack (_ ∈ order)); vm_compute..|].
    by apply elem_of_nil in Hi. }
  fold (one_cycle timers) in Hact, Hlen.
  destruct (cycles_trace_quiet (seq 0 (Z.to_nat (max_cycles config)))
              (one_cycle timers)) as [Hc1 Hc2].
  rewrite length_seq in Hc1, Hc2.
  rewrite process_intersection_drawn, process_intersection_unfold.
  fold timers. rewrite cycles_no_esc by done. cbn [fst snd].
  split; [done|]. split.
  - change (activated (LogStarting :: ?t)) with (activated t).
    rewrite !activated_app, activated_set_timers, Hc1, Hact. cbn [app].
    by rewrite app_nil_r.
  - by rewrite Hc2, Hlen.
Qed.

Lemma quiet_run_rotation_witness :
  length (drawn (process_intersection default_config (λ _, Vehicles 3)
                   (λ _, false) main_images).1)
  = (5 * (15 + 15 + 15 + 15))%nat.
Proof.
  destruct (quiet_run_rotation default_config (λ _, Vehicles 3) (λ _, false)
              main_images) as (_ & _ & H).
  - done.
  - intros d Hd. unfold order in Hd.
    repeat (apply elem_of_cons in Hd as [->|Hd]);
      [by apply (bool_decide_unpack (_ ∈ main_images.*1)); vm_compute..|].
    by apply elem_of_nil in Hd.
  - rewrite H. by vm_compute.
Defined.

(** X11. ESC stops the run at the first call of [draw_traffic_ui] at which
    it is down: a run ends stopped exactly when the picture it draws last
    is drawn at such a call, no earlier call saw ESC, and the stop is
    logged; a run that ends otherwise saw no ESC at any of its calls. *)
Theorem esc_stops_the_run (config : TrafficConfig) (files : string → ImageFile)
    (esc : nat → bool) (images : list (string * string)) :
  let run := process_intersection config files esc images in
  match run.2 with
  | Stopped =>
      ∃ m, length (drawn run.1) = S m
           ∧ esc m = true
           ∧ (∀ k, (k < m)%nat → esc k = false)
           ∧ LogStopped ∈ run.1
  | _ => ∀ k, (k < length (drawn run.1))%nat → esc k = false
  end.
Proof.
  intros run. subst run.
  rewrite process_intersection_drawn, process_intersection_unfold.
  cbn [fst snd].
  pose proof (cycles_esc (set_timers config files images ∅).1 esc 0
                (seq 0 (Z.to_nat (max_cycles config)))) as H.
  destruct (cycles _ esc 0 _) as [tr out]. cbn [fst snd] in *.
  destruct out.
  - intros k Hk. apply H. lia.
  - destruct H as (m & Hm & Hesc & Hbefore & Hlog).
    exists m. split; [done|]. split; [done|].
    split; [intros k Hk; apply Hbefore; lia|].
    right. apply elem_of_app. right. apply elem_of_app. by left.
  - intros k Hk. apply H. lia.
Qed.

(** X12. When the image dictionary lacks one of the four directions and
    nobody presses ESC, a run with at least one cycle fails in its first
    cycle: the directions before the missing one in [order] get their green
    phase, then the simulation error is logged and no further phase
    starts. *)
Theorem missing_direction_fails (config : TrafficConfig)
    (files : string → ImageFile) (esc : nat → bool)
    (images : list (string * string)) (i : nat) (d : string) :
  (∀ k, esc k = false) → (0 < max_cycles config)%Z →
  order !! i = Some d → d ∉ images.*1 →
  (∀ j d', (j < i)%nat → order !! j = Some d' → d' ∈ images.*1) →
  let run := process_intersection config files esc images in
  run.2 = Failed
  ∧ activated run.1 = take i order
  ∧ LogSimulationError ∈ run.1.
Proof.
  intros Hesc Hcycles Hd Hmissing Hbefore run. subst run.
  set (timers := (set_timers config files images ∅).1).
  assert (Hnone : timers !! order_at i = None).
  { unfold order_at. rewrite Hd. cbn. unfold timers.
    by rewrite set_timers_lookup_other. }
  assert (Hsplit : seq 0 4 = seq 0 i ++ i :: seq (S i) (3 - i)
                   ∧ order_at <$> seq 0 i = take i order).
  { by destruct i as [|[|[|[|i]]]]. }
  destruct Hsplit as [Hsplit Htake].
  destruct (phases_missing timers esc 0 (seq 0 i) i (seq (S i) (3 - i)))
    as (Hout & Hact & Hlast); [done| |done|].
  { intros j Hj%elem_of_seq. apply set_timers_is_Some. left.
    apply (Hbefore j); [lia|].
    assert (Hj4 : (j < 4)%nat) by (apply lookup_lt_Some in Hd; cbn in Hd; lia).
    unfold order_at. by destruct j as [|[|[|[|j]]]]; [..|lia]. }
  rewrite <- Hsplit in Hout, Hact, Hlast.
  rewrite process_intersection_unfold. fold timers. cbn [fst snd].
  destruct (Z.to_nat (max_cycles config)) as [|cycles'] eqn:Hn; [lia|].
  change (seq 0 (S cycles')) with (0%nat :: seq 1 cycles'). cbn [cycles].
  destruct (phases timers esc 0 (seq 0 4)) as [[tr n'] out].
  cbn [fst snd] in *. subst out. cbn [fst snd].
  split; [done|]. split.
  - change (activated (LogStarting :: ?t)) with (activated t).
    rewrite !activated_app, activated_set_timers. cbn [app].
    change (activated (LogCycle ?c :: ?t)) with (activated t).
    rewrite Hact, Htake. cbn. by rewrite app_nil_r.
  - right. apply elem_of_app. right. apply elem_of_app. left. right.
    apply last_Some in Hlast as [l' ->]. apply elem_of_app. right. by left.
Qed.

Lemma missing_direction_fails_witness :
  (process_intersection default_config (λ _, Vehicles 3) (λ _, false)
     [("North"%string, "as.jpg"%string); ("West"%string, "download.jpg"%string)]).2
  = Failed.
Proof.
  apply (missing_direction_fails default_config (λ _, Vehicles 3) (λ _, false)
           [("North"%string, "as.jpg"%string);
            ("West"%string, "download.jpg"%string)] 1 "East").
  - done.
  - by vm_compute.
  - reflexivity.
  - by apply (bool_decide_unpack (_ ∉ _)); vm_compute.
  - intros j d' Hj Hd'. assert (j = 0%nat) as -> by lia.
    injection Hd' as <-. by left.
Defined.

End LightFurther.

Section AccidentFurther.
Import Accident AccidentFacts.

(** X13. The emergency call sequence always calls the first recipient, and
    calls the second one exactly when the first call was placed (status
    code 201 with a non-empty call id) and the status request answers with
    a status other than "completed" and "answered", the missing status
    included.  When the first call cannot be placed, nobody else is called;
    the sequence raises exactly when the call was placed and the status
    request raises. *)
Theorem second_recipient_condition (first : Reply) (status : StatusReply) :
  let placed_unanswered :=
    ∃ sid s, first = Http 201 (Some sid) ∧ sid ≠ ""%string
             ∧ status = StatusBody s
             ∧ default ""%string s ≠ "completed"%string
             ∧ default ""%string s ≠ "answered"%string in
  (placed_unanswered →
   calls (handle_emergency_call (telephone_of first status)).1
   = [first_recipient; second_recipient])
  ∧ (¬ placed_unanswered →
     calls (handle_emergency_call (telephone_of first status)).1
     = [first_recipient])
  ∧ (make_phone_call first = None →
     telephone_of first status = CallRefused)
  ∧ ((handle_emergency_call (telephone_of first status)).2 = true
     ↔ ∃ sid, make_phone_call first = Some sid ∧ sid ≠ ""%string
              ∧ status = StatusRaises).
Proof.
  intros placed_unanswered. subst placed_unanswered. split; [|split; [|split]].
  - intros (sid & s & -> & Hsid & -> & H1 & H2).
    unfold telephone_of, make_phone_call.
    rewrite (decide_True (P := 201%Z = 201%Z)) by done.
    rewrite (decide_False (P := sid = ""%string)) by done.
    rewrite decide_False; [done|].
    intros Hin. repeat (apply elem_of_cons in Hin as [?|Hin]); try done.
    by apply elem_of_nil in Hin.
  - intros Hnot. unfold telephone_of.
    destruct first as [|code sid]; [done|]. unfold make_phone_call.
    case_decide as Hcode; [subst code|done].
    destruct sid as [sid|]; [|done]. case_decide as Hsid; [done|].
    destruct status as [|s]; [done|]. case_decide as Hs; [done|].
    exfalso. apply Hnot. exists sid, s. repeat split; try done.
    + intros Heq. apply Hs. rewrite Heq. by left.
    + intros Heq. apply Hs. rewrite Heq. right. by left.
  - intros Hnone. unfold telephone_of. by rewrite Hnone.
  - unfold telephone_of. destruct (make_phone_call first) as [sid|]; cbn.
    2:{ split; [done|]. by intros (sid & ? & _). }
    case_decide as Hsid.
    { cbn. split; [done|]. intros (sid' & [= <-] & Hne & _). done. }
    destruct status as [|s].
    + cbn. split; [|done]. intros _. by exists sid.
    + case_decide; cbn; (split; [done|]); by intros (? & _ & _ & ?).
Qed.

Lemma second_recipient_condition_witness :
  calls (handle_emergency_call
           (telephone_of (Http 201 (Some "CA1"%string))
              (StatusBody (Some "no-answer"%string)))).1
  = [first_recipient; second_recipient]
  ∧ telephone_of (Http 500 None) StatusRaises = CallRefused.
Proof.
  split.
  - apply (second_recipient_condition (Http 201 (Some "CA1"%string))
             (StatusBody (Some "no-answer"%string))).
    exists "CA1"%string, (Some "no-answer"%string). by repeat split.
  - apply (second_recipient_condition (Http 500 None) StatusRaises).
    reflexivity.
Defined.

(** X14. A run never calls again: the recipients called in a whole run are
    none, or those of one emergency call sequence, so at most two calls
    are made whatever the video shows, and a first call that could not be
    placed is not retried on later frames. *)
Theorem calls_are_never_retried (w : World) :
  (calls (main w) = []
   ∨ calls (main w) = calls (handle_emergency_call (telephone w)).1)
  ∧ (length (calls (main w)) ≤ 2)%nat
  ∧ (telephone w = CallRefused → (length (calls (main w)) ≤ 1)%nat).
Proof.
  assert (Hloop : ∀ t frames,
            calls (process_video t frames false) = []
            ∨ calls (process_video t frames false)
              = calls (handle_emergency_call t).1).
  { intros t frames. induction frames as [|f rest IH]; [by left|].
    cbn [process_video negb]. destruct (above_threshold f).
    - right. destruct (handle_emergency_call t) as [tr raised].
      cbn [fst]. change (calls (DrawAlert ?c :: ?l)) with (calls l).
      rewrite calls_app. destruct raised; [by rewrite app_nil_r|].
      change (calls (ShowFrame :: ?l)) with (calls l).
      destruct (q_key f); [by rewrite app_nil_r|].
      by rewrite process_video_flagged_calls, app_nil_r.
    - change (calls (ShowFrame :: ?l)) with (calls l).
      destruct (q_key f); [by left | done]. }
  assert (Hmain : calls (main w) = []
            ∨ calls (main w) = calls (handle_emergency_call (telephone w)).1).
  { unfold main. destruct (model_loads w); [|by left].
    destruct (video_opens w); [|by left]. apply Hloop. }
  split; [done|]. split.
  - destruct Hmain as [->| ->]; [cbn; lia|]. destruct (telephone w); cbn; lia.
  - intros Ht. destruct Hmain as [->| ->]; [cbn; lia|]. rewrite Ht. cbn. lia.
Qed.

Lemma calls_are_never_retried_witness :
  (length (calls (main (mkWorld true true
                          [mkFrame (Finite 95) false; mkFrame (Finite 99) false]
                          CallRefused))) ≤ 1)%nat.
Proof.
  apply (calls_are_never_retried
           (mkWorld true true
              [mkFrame (Finite 95) false; mkFrame (Finite 99) false]
              CallRefused)).
  reflexivity.
Defined.

(** X15. When the model loads and the video opens, the run ends with the
    release of the video and the closing line when the status request of
    the emergency call does not raise, and also, whatever the telephone
    service does, when no call is made, that is when no frame that the loop
    reaches is above the threshold.  When the status request raises, the
    run ends in the error handler at the first frame above the threshold
    that the loop reaches: that frame is not shown, the frames after it are
    not processed and the video is not released. *)
Theorem video_released_unless_status_fails (w : World) :
  model_loads w = true → video_opens w = true →
  (telephone w ≠ StatusUnavailable → last (main w) = Some PrintCompleted)
  ∧ ((∀ pre f post,
        video w = pre ++ f :: post →
        (∀ g, g ∈ pre → q_key g = false) →
        above_threshold f = false) →
     last (main w) = Some PrintCompleted)
  ∧ (telephone w = StatusUnavailable →
     ∀ pre f post,
       video w = pre ++ f :: post →
       (∀ g, g ∈ pre → above_threshold g = false ∧ q_key g = false) →
       above_threshold f = true →
       main w
       = [PrintLoading; PrintLoaded; PrintOpening; PrintProcessing]
         ++ replicate (length pre) ShowFrame
         ++ DrawAlert (confidence f)
         :: (handle_emergency_call StatusUnavailable).1 ++ [PrintError]
       ∧ shown (main w) = length pre
       ∧ PrintCompleted ∉ main w).
Proof.
  intros Hm Hv. unfold main. rewrite Hm, Hv. split; [|split].
  - intros Ht.
    pose proof (process_video_released (telephone w) (video w) false Ht) as H.
    by destruct (process_video (telephone w) (video w) false).
  - intros Hnone.
    pose proof (process_video_no_alert (telephone w) (video w) false Hnone) as H.
    by destruct (process_video (telephone w) (video w) false).
  - intros Ht pre f post Hvideo Hpre Hf.
    rewrite Hvideo, Ht, process_video_below by done.
    cbn [process_video negb]. rewrite Hf.
    destruct (initiations_replicate_show (length pre)) as [_ Hs].
    split; [done|]. split.
    + cbn [handle_emergency_call fst app shown].
      rewrite shown_app, Hs. cbn. lia.
    + cbn [handle_emergency_call fst app].
      rewrite !not_elem_of_cons, not_elem_of_app.
      repeat (split; [done|]). split.
      * intros H%elem_of_replicate. by destruct H.
      * rewrite !not_elem_of_cons. repeat (split; [done|]).
        apply not_elem_of_nil.
Qed.

Lemma video_released_unless_status_fails_witness :
  main (mkWorld true true
          [mkFrame (Finite 90) false; mkFrame (Finite 95) false;
           mkFrame (Finite 99) false] StatusUnavailable)
  = [PrintLoading; PrintLoaded; PrintOpening; PrintProcessing; ShowFrame;
     DrawAlert (Finite 95); PrintInitiating; PhoneCall first_recipient;
     SleepThirty; StatusRequest; PrintError].
Proof.
  destruct (video_released_unless_status_fails
              (mkWorld true true
                 [mkFrame (Finite 90) false; mkFrame (Finite 95) false;
                  mkFrame (Finite 99) false] StatusUnavailable))
    as (_ & _ & H).
  - reflexivity.
  - reflexivity.
  - destruct (H eq_refl [mkFrame (Finite 90) false] (mkFrame (Finite 95) false)
                [mkFrame (Finite 99) false]) as (Hrun & _).
    + reflexivity.
    + intros g Hg. apply list_elem_of_singleton in Hg as ->. by vm_compute.
    + by vm_compute.
    + exact Hrun.
Defined.

(** X16. When the model loads, the video opens, nobody presses [q] and the
    status request does not raise, every frame of the video is shown once
    and an alert is drawn on every frame whose confidence is above 90, also
    on those that come after the emergency call. *)
Theorem every_frame_is_shown (w : World) :
  model_loads w = true → video_opens w = true →
  telephone w ≠ StatusUnavailable →
  (∀ g, g ∈ video w → q_key g = false) →
  shown (main w) = length (video w)
  ∧ alerts (main w)
    = length (filter (λ g, above_threshold g = true) (video w)).
Proof.
  intros Hm Hv Ht Hq. unfold main. rewrite Hm, Hv.
  destruct (process_video_counts (telephone w) (video w) false Ht Hq)
    as [H1 H2].
  cbn [shown alerts]. by rewrite H1, H2.
Qed.

Lemma every_frame_is_shown_witness :
  alerts (main (mkWorld true true
                  [mkFrame (Finite 95) false; mkFrame (Finite 90) false;
                   mkFrame (Finite 99) false] CallAcknowledged))
  = 2%nat.
Proof.
  destruct (every_frame_is_shown
              (mkWorld true true
                 [mkFrame (Finite 95) false; mkFrame (Finite 90) false;
                  mkFrame (Finite 99) false] CallAcknowledged)) as [_ H].
  - reflexivity.
  - reflexivity.
  - discriminate.
  - intros g Hg. repeat (apply elem_of_cons in Hg as [->|Hg]); try done.
    by apply elem_of_nil in Hg.
  - rewrite H. by vm_compute.
Defined.

(** X17. A frame at which [q] is pressed is the last one processed: the
    frames after it change nothing in the run. *)
Theorem q_ends_the_video (loads opens : bool) (t : Telephone)
    (pre : list VideoFrame) (f : VideoFrame) (post : list VideoFrame) :
  q_key f = true →
  main (mkWorld loads opens (pre ++ f :: post) t)
  = main (mkWorld loads opens (pre ++ [f]) t).
Proof.
  intros Hq. unfold main. cbn [model_loads video_opens video telephone].
  destruct loads; [|done]. destruct opens; [|done].
  by rewrite (process_video_q t pre f post false Hq).
Qed.

Lemma q_ends_the_video_witness :
  main (mkWorld true true
          ([mkFrame (Finite 50) false] ++ mkFrame (Finite 50) true
           :: [mkFrame (Finite 99) false]) CallUnanswered)
  = main (mkWorld true true ([mkFrame (Finite 50) false] ++ [mkFrame (Finite 50) true])
            CallUnanswered).
Proof.
  apply (q_ends_the_video true true CallUnanswered [mkFrame (Finite 50) false]
           (mkFrame (Finite 50) true) [mkFrame (Finite 99) false]).
  reflexivity.
Defined.

End AccidentFurther.

Section KeyboardFurther.
Import Accident AccidentFacts.

(** X18. The test for [q] looks at the low byte of the key code only: it
    holds exactly when the code is 113 modulo 256, so it holds for [q] with
    any higher bits set, and it fails when no key is down (code -1). *)
Theorem q_test_reads_the_low_byte (key : Z) :
  (q_pressed key = true ↔ (key mod 256 = 113)%Z)
  ∧ (∀ k, q_pressed (key + 256 * k) = q_pressed key)
  ∧ q_pressed 113 = true
  ∧ q_pressed (-1) = false.
Proof.
  assert (Hland : ∀ x, Z.land x 255 = (x mod 256)%Z).
  { intros x. change 255%Z with (Z.ones 8). by rewrite Z.land_ones. }
  unfold q_pressed. split; [|split; [|done]].
  - rewrite bool_decide_eq_true. by rewrite Hland.
  - intros k. apply bool_decide_ext. rewrite !Hland.
    by rewrite Z.mul_comm, Z.mod_add.
Qed.

End KeyboardFurther.
